(** * faceless: highlight extraction and timeline compositing

    A shallow embedding of the pure parts of [analysis.js], [asr.js],
    [export.js] and [utils.js], and the properties of the specification
    that are about them.

    Numbers.  JavaScript numbers are IEEE doubles; they are modelled here
    by the exact rationals [Q], so rounding, [NaN] and the infinities are
    outside the model.  Sums, differences, products and quotients are
    exact here where the code rounds them; the properties are therefore
    stated by comparisons and by the expressions that the code itself
    evaluates, which rounding respects, and not by identities of exact
    arithmetic.  The one infinity the code computes with, the initial
    [lastIdx = -Infinity] of [detectPeaks], has a constructor of its
    own.  Array indices and lengths are [nat].

    Arrays are lists: [arr[i]] is stdpp's lookup [arr !! i], with [None]
    for [undefined], and an indexed store [out[i] = v] is stdpp's insert
    [<[i:=v]> out].  The stores of the modelled loops are in range.

    The collaborators that decode media, play video and recognise speech
    are outside the model; what they hand to the code is an explicit
    input of the function that receives it. *)

From Stdlib Require Import QArith Qminmax Qround Lqa Lia ZArith String.
From Stdlib Require Import Sorting.Sorted Sorting.Permutation.
From Stdlib Require Import DecimalString DecimalNat.
From stdpp Require Import base list.

Open Scope Q_scope.

(* ================================================================== *)
(** ** Numbers and arrays *)

Definition Qlt_bool (a b : Q) : bool := negb (Qle_bool b a).

(** [Math.max(a, b)] and [Math.min(a, b)] on finite numbers. *)
Definition Math_max (a b : Q) : Q := if Qle_bool a b then b else a.
Definition Math_min (a b : Q) : Q := if Qle_bool a b then a else b.

(** [Math.floor] of a number that is used as an array index. *)
Definition Math_floor (x : Q) : Z := Qfloor x.

(** The length of an array, as a number. *)
Definition len {A} (l : list A) : Q := inject_Z (Z.of_nat (length l)).

(** [arr[i]] in [movingAverage] and [detectPeaks], whose reads are in
    range: the default is never returned. *)
Definition at_ (arr : list Q) (i : nat) : Q := default 0 (arr !! i).

(** [Array.prototype.sort(cmp)]: the sort is stable (ECMAScript 2019), so
    for a consistent comparator its result is the one a stable insertion
    sort gives.  [cmp a b > 0] means that [a] goes after [b]. *)
Fixpoint sort_insert {A} (cmp : A -> A -> Q) (x : A) (l : list A) : list A :=
  match l with
  | [] => [x]
  | y :: l' => if Qlt_bool 0 (cmp x y) then y :: sort_insert cmp x l'
               else x :: y :: l'
  end.

Definition Array_sort {A} (cmp : A -> A -> Q) (l : list A) : list A :=
  foldr (sort_insert cmp) [] l.

(* ================================================================== *)
(** ** utils.js *)

(** [clamp(value, min, max)] with a finite [max] ... *)
Definition clamp (value lo hi : Q) : Q := Math_min hi (Math_max lo value).

(** ... and [clamp(value, min, Infinity)], the only way [analyzeVideos]
    calls it: [Math.min(Infinity, x)] is [x]. *)
Definition clamp_inf (value lo : Q) : Q := Math_max lo value.

(** [movingAverage(arr, k)] for a window size [k] that is a natural
    number: the loop body, on the state [(sum, out)].  The running [sum]
    is exact here; in the code it carries the rounding of every [+=] and
    [-=].  (For [k = 0] the code divides by 0.) *)
Definition movingAverage_step (arr : list Q) (k : nat)
    (st : Q * list Q) (i : nat) : Q * list Q :=
  let '(sum, out) := st in
  let sum := sum + at_ arr i in
  let sum := if (k <=? i)%nat then sum - at_ arr (i - k) else sum in
  (sum, <[i := sum / inject_Z (Z.of_nat (Nat.min (i + 1) k))]> out).

Definition movingAverage (arr : list Q) (k : nat) : list Q :=
  snd (fold_left (movingAverage_step arr k) (seq 0 (length arr))
         (0, replicate (length arr) 0)).

(** [let lastIdx = -Infinity] *)
Inductive lastIndex : Type :=
| NegInfinity
| LastAt (i : nat).

(** The difference [i - j] of two indices, as a number. *)
Definition indexDiff (i j : nat) : Q := inject_Z (Z.of_nat i - Z.of_nat j).

(** [i - lastIdx >= minDistance]; [i - (-Infinity)] is [Infinity]. *)
Definition farEnough (i : nat) (lastIdx : lastIndex) (minDistance : Q) : bool :=
  match lastIdx with
  | NegInfinity => true
  | LastAt l => Qle_bool minDistance (indexDiff i l)
  end.

(** The test of line 296 of [detectPeaks]. *)
Definition isPeak (arr : list Q) (threshold : Q) (i : nat) : bool :=
  Qlt_bool threshold (at_ arr i)
  && Qlt_bool (at_ arr (i - 1)) (at_ arr i)
  && Qle_bool (at_ arr (i + 1)) (at_ arr i).

Definition detectPeaks_step (arr : list Q) (threshold : Q) (minDistance : Q)
    (st : list nat * lastIndex) (i : nat) : list nat * lastIndex :=
  let '(peaks, lastIdx) := st in
  if isPeak arr threshold i then
    if farEnough i lastIdx minDistance then (peaks ++ [i], LastAt i) else st
  else st.

(** [for (let i = 1; i < arr.length - 1; i++)] visits 1, ..., length-2. *)
Definition detectPeaks (arr : list Q) (threshold : Q) (minDistance : Q)
    : list nat :=
  fst (fold_left (detectPeaks_step arr threshold minDistance)
         (seq 1 (length arr - 2)) ([], NegInfinity)).

(* ================================================================== *)
(** ** Transcription results and caption segments *)

(** A chunk of a transcription result, with the fields [extractSegments]
    probes.  An absent (or [null]) field is [None].  [timestamp] is a
    two-element array whose entries may be [null]. *)
Record Chunk : Type := mkChunk {
  ch_timestamp : option (option Q * option Q);
  ch_time : option Q;
  ch_timestart : option Q;
  ch_timeend : option Q;
  ch_start : option Q;
  ch_end : option Q;
  ch_text : option string;
  ch_chunk : option string;
  ch_raw_text : option string
}.

(** [{ text, chunks?, segments? }] *)
Record AsrResult : Type := mkAsrResult {
  asr_text : option string;
  asr_chunks : option (list Chunk);
  asr_segments : option (list Chunk)
}.

(** A caption segment [{ start, end, text }]. *)
Record Segment : Type := mkSegment {
  seg_start : Q;
  seg_end : Q;
  seg_text : string
}.

(** Truthiness of an optional number and of an optional string. *)
Definition truthyNum (x : option Q) : bool :=
  match x with
  | Some q => negb (Qeq_bool q 0)
  | None => false
  end.

Definition truthyStr (x : option string) : bool :=
  match x with
  | Some s => negb (String.eqb s EmptyString)
  | None => false
  end.

(** [a || b] on optional strings. *)
Definition orStr (a b : option string) : option string :=
  if truthyStr a then a else b.

(* ================================================================== *)
(** ** asr.js *)

(** The speech recogniser is an external collaborator: [getPipeline ()]
    either fails ([None]) or gives a function from samples and a sampling
    rate to a result, which may itself fail or give [null] ([None]). *)
Definition Pipeline : Type := list Q -> Q -> option AsrResult.

(** [runTranscriptionIfEnabled(audioPCM, sampleRate, onProgress)]; every
    failure inside the [try] ends in [return null]. *)
Definition runTranscriptionIfEnabled (getPipeline : option Pipeline)
    (audioPCM : list Q) (sampleRate : Q) : option AsrResult :=
  if (length audioPCM =? 0)%nat then None
  else
    match getPipeline with
    | None => None
    | Some asr =>
        if Qlt_bool sampleRate 100 then None
        else asr audioPCM sampleRate
    end.

(* ================================================================== *)
(** ** analysis.js *)

(** [{ fileIndex, start, end }], times in seconds local to the file. *)
Record Clip : Type := mkClip {
  fileIndex : nat;
  clip_start : Q;
  clip_end : Q
}.

(** What the external collaborators give for one input file: the RMS
    curve [computeRMS(resampleMonoPCM(pcm, sr, 16000), 1600, 1600)] and
    the [duration] reported by [detectScenes]. *)
Record DecodedFile : Type := mkDecodedFile {
  df_rms : list Q;
  df_duration : Q
}.

(** An entry of [perFileResults] (the file itself and its scene cuts are
    not read by the functions modelled here). *)
Record PerFileResult : Type := mkPerFileResult {
  pf_fileIndex : nat;
  pf_duration : Q
}.

(** The range test and the clip built at index [i] of the loop of
    [mapGlobalTimeToFileRange]; an [undefined] offset fails the test. *)
Definition fileRangeAt (start end_ : Q) (perFileResults : list PerFileResult)
    (offsets : list Q) (i : nat) : option Clip :=
  match offsets !! i, perFileResults !! i with
  | Some off, Some res =>
      let dur := pf_duration res in
      if Qle_bool off start && Qlt_bool start (off + dur) then
        Some {| fileIndex := i;
                clip_start := start - off;
                clip_end := Math_min (end_ - off) dur |}
      else None
  | _, _ => None
  end.

Fixpoint mapGlobalTime_loop (start end_ : Q)
    (perFileResults : list PerFileResult) (offsets : list Q)
    (indices : list nat) : option Clip :=
  match indices with
  | [] => None
  | i :: later =>
      match fileRangeAt start end_ perFileResults offsets i with
      | Some clip => Some clip
      | None => mapGlobalTime_loop start end_ perFileResults offsets later
      end
  end.

Definition mapGlobalTimeToFileRange (start end_ : Q)
    (perFileResults : list PerFileResult) (offsets : list Q) : option Clip :=
  mapGlobalTime_loop start end_ perFileResults offsets
    (seq 0 (length perFileResults)).

(** The comparator [(a.fileIndex - b.fileIndex) || (a.start - b.start)]. *)
Definition clipCompare (a b : Clip) : Q :=
  let d := inject_Z (Z.of_nat (fileIndex a) - Z.of_nat (fileIndex b)) in
  if Qeq_bool d 0 then clip_start a - clip_start b else d.

(** The body of the merging loop of [dedupeClips]: [last] is the last
    element of [out], and [last.end = ...] stores into that element.
    The clips of the input are distinct objects. *)
Definition dedupe_step (minGapSeconds : Q) (out : list Clip) (c : Clip)
    : list Clip :=
  match last out with
  | None => out ++ [c]
  | Some l =>
      if negb (fileIndex l =? fileIndex c)%nat
         || Qle_bool minGapSeconds (clip_start c - clip_end l)
      then out ++ [c]
      else <[(length out - 1)%nat :=
               {| fileIndex := fileIndex l;
                  clip_start := clip_start l;
                  clip_end := Math_max (clip_end l) (clip_end c) |}]> out
  end.

(** The final [out.map(...)]: the floor on the length reads the
    unclamped [c.start]. *)
Definition clipFloor (c : Clip) : Clip :=
  {| fileIndex := fileIndex c;
     clip_start := Math_max 0 (clip_start c);
     clip_end := Math_max (clip_start c + (1 # 2)) (clip_end c) |}.

Definition dedupeClips (clips : list Clip) (minGapSeconds : Q) : list Clip :=
  let clips := Array_sort clipCompare clips in
  let out := fold_left (dedupe_step minGapSeconds) clips [] in
  map clipFloor out.

(** [Math.floor(sorted.length * 0.8)] and
    [sorted[Math.floor(sorted.length * 0.8)] || 0.01] of lines 82-83. *)
Definition q80_index (sorted : list Q) : nat :=
  Z.to_nat (Math_floor (len sorted * (8 # 10))).

(** The comparator [(a, b) => a - b]. *)
Definition numCompare (a b : Q) : Q := a - b.

Definition peakThreshold (globalAudio : list Q) : Q :=
  let sorted := Array_sort numCompare globalAudio in
  match sorted !! q80_index sorted with
  | Some v => if Qeq_bool v 0 then 1 # 100 else v
  | None => 1 # 100
  end.

(** The first loop of [analyzeVideos]: the global curve and the per-file
    results. *)
Definition decode_step (st : list PerFileResult * list Q)
    (file : nat * DecodedFile) : list PerFileResult * list Q :=
  let '(perFileResults, globalAudio) := st in
  let '(i, f) := file in
  let smooth := movingAverage (df_rms f) 5 in
  (perFileResults ++ [{| pf_fileIndex := i; pf_duration := df_duration f |}],
   globalAudio ++ smooth).

Definition decodeAll (videoFiles : list DecodedFile)
    : list PerFileResult * list Q :=
  fold_left decode_step (imap (fun i f => (i, f)) videoFiles) ([], []).

Definition videoOffsets_step (st : list Q * Q) (res : PerFileResult)
    : list Q * Q :=
  let '(videoOffsets, offset) := st in
  (videoOffsets ++ [offset], offset + pf_duration res).

Definition videoOffsets (perFileResults : list PerFileResult) : list Q :=
  fst (fold_left videoOffsets_step perFileResults ([], 0)).

Definition hopSec : Q := 1600 / 16000.

(** The loop over the peaks, with its [break]. *)
Fixpoint clipsOfPeaks (minLen maxLen maxClips : Q)
    (perFileResults : list PerFileResult) (offsets : list Q)
    (peaks : list nat) (clips : list Clip) : list Clip :=
  match peaks with
  | [] => clips
  | pi :: later =>
      let t := inject_Z (Z.of_nat pi) * hopSec in
      let start := clamp_inf (t - minLen / 2) 0 in
      let end_ := clamp_inf (start + maxLen) 0 in
      let clips :=
        match mapGlobalTimeToFileRange start end_ perFileResults offsets with
        | Some clip => clips ++ [clip]
        | None => clips
        end in
      if Qle_bool maxClips (len clips) then clips
      else clipsOfPeaks minLen maxLen maxClips perFileResults offsets
             later clips
  end.

(** [{ clips, audioPCM, sampleRate }].  [an_audioPCM] holds the samples
    of [globalAudio]; [new Float32Array(globalAudio)] (line 114) rounds
    each of them to single precision and keeps their number and order. *)
Record Analysis : Type := mkAnalysis {
  an_clips : list Clip;
  an_audioPCM : list Q;
  an_sampleRate : Q
}.

Definition analyzeVideos (videoFiles : list DecodedFile)
    (minLen maxLen maxClips : Q) : Analysis :=
  let '(perFileResults, globalAudio) := decodeAll videoFiles in
  let q80 := peakThreshold globalAudio in
  let peaks := detectPeaks globalAudio q80 3 in
  let offsets := videoOffsets perFileResults in
  let clips :=
    clipsOfPeaks minLen maxLen maxClips perFileResults offsets peaks [] in
  let deduped := dedupeClips clips 1 in
  {| an_clips := deduped; an_audioPCM := globalAudio; an_sampleRate := 10 |}.

(* ================================================================== *)
(** ** export.js *)

(** An array is truthy, an absent field is not. *)
Definition truthyArr {A} (x : option A) : bool :=
  match x with
  | Some _ => true
  | None => false
  end.

(** Line 214.  [||] binds tighter than [?:], so the test is
    [ch.timestamp || ch.time || ch.timestart] and the first branch is the
    array [[ch.timestart, ch.timeend]]. *)
Definition chunk_ts (ch : Chunk) : option (option Q * option Q) :=
  if truthyArr (ch_timestamp ch) || truthyNum (ch_time ch)
     || truthyNum (ch_timestart ch)
  then Some (ch_timestart ch, ch_timeend ch)
  else ch_timestamp ch.

(** [x ?? 0] *)
Definition orZero (x : option Q) : Q := default 0 x.

Definition segmentOfChunk (ch : Chunk) : Segment :=
  let ts := chunk_ts ch in
  let start := match ts with
               | Some (t0, _) => orZero t0
               | None => orZero (ch_start ch)
               end in
  let end_ := match ts with
              | Some (_, t1) => orZero t1
              | None => orZero (ch_end ch)
              end in
  {| seg_start := Math_max 0 start;
     seg_end := Math_max start end_;
     seg_text := default EmptyString
                   (orStr (orStr (orStr (ch_text ch) (ch_chunk ch))
                             (ch_raw_text ch))
                      (Some EmptyString)) |}.

(** [Number.MAX_SAFE_INTEGER / 1000] *)
Definition unboundedEnd : Q := 9007199254740991 / 1000.

(** [asrResult.chunks || asrResult.segments || []]: an array is truthy,
    empty or not. *)
Definition resultChunks (r : AsrResult) : list Chunk :=
  match asr_chunks r, asr_segments r with
  | Some cs, _ => cs
  | None, Some ss => ss
  | None, None => []
  end.

(** [extractSegments(asrResult)]; [None] is [null]. *)
Definition extractSegments (asrResult : option AsrResult)
    : option (list Segment) :=
  match asrResult with
  | None => None
  | Some r =>
      let chunks := resultChunks r in
      let segs := map segmentOfChunk chunks in
      if (length segs =? 0)%nat && truthyStr (asr_text r)
      then Some (segs ++ [{| seg_start := 0;
                             seg_end := unboundedEnd;
                             seg_text := default EmptyString (asr_text r) |}])
      else Some segs
  end.

(** [while (segIdx < captionSegments.length &&
            captionSegments[segIdx].end < tExport) segIdx++]
    run on the segments from [segIdx] on. *)
Fixpoint advance_loop (rest : list Segment) (tExport : Q) (segIdx : nat)
    : nat :=
  match rest with
  | [] => segIdx
  | seg :: rest' =>
      if Qlt_bool (seg_end seg) tExport
      then advance_loop rest' tExport (S segIdx)
      else segIdx
  end.

Definition advance (captionSegments : list Segment) (tExport : Q)
    (segIdx : nat) : nat :=
  advance_loop (drop segIdx captionSegments) tExport segIdx.

(** One caption lookup of [draw]: the export time, the cursor after the
    [while] loop and the text handed to [drawCaption], if any. *)
Record Lookup : Type := mkLookup {
  lk_tExport : Q;
  lk_segIdx : nat;
  lk_drawn : option string
}.

Definition captionAt (captionSegments : list Segment) (tExport : Q)
    (segIdx : nat) : option string :=
  match captionSegments !! segIdx with
  | Some seg =>
      if Qle_bool (seg_start seg) tExport && Qle_bool tExport (seg_end seg)
      then Some (seg_text seg)
      else None
  | None => None
  end.

(** The [draw] callback of [renderClipToCanvas], once per animation
    frame.  The frame source is explicit: [currentTimes] are the values of
    [video.currentTime] that the successive calls read.  The result is the
    sequence of caption lookups; a frame drawn without captions
    contributes none. *)
Fixpoint draw (clip : Clip) (captionSegments : option (list Segment))
    (exportOffset : Q) (currentTimes : list Q) (segIdx : nat) : list Lookup :=
  match currentTimes with
  | [] => []
  | currentTime :: later =>
      if Qle_bool (clip_end clip) currentTime then []
      else
        match captionSegments with
        | Some (seg0 :: segs') =>
            let segs := seg0 :: segs' in
            let tExport := exportOffset + (currentTime - clip_start clip) in
            let segIdx := advance segs tExport segIdx in
            {| lk_tExport := tExport;
               lk_segIdx := segIdx;
               lk_drawn := captionAt segs tExport segIdx |}
            :: draw clip captionSegments exportOffset later segIdx
        | _ => draw clip captionSegments exportOffset later segIdx
        end
  end.

(** [renderClipToCanvas]: [let segIdx = 0] is local to the call. *)
Definition renderClipToCanvas (clip : Clip)
    (captionSegments : option (list Segment)) (exportOffset : Q)
    (currentTimes : list Q) : list Lookup :=
  draw clip captionSegments exportOffset currentTimes 0%nat.

(** The rendering loop of [exportCompilation] (lines 59-67): each clip
    comes with the playback positions read while it is rendered. *)
Fixpoint renderTimeline (clips : list (Clip * list Q))
    (captionSegments : option (list Segment)) (exportOffset : Q)
    : list Lookup :=
  match clips with
  | [] => []
  | (c, currentTimes) :: later =>
      renderClipToCanvas c captionSegments exportOffset currentTimes
      ++ renderTimeline later captionSegments
           (exportOffset + (clip_end c - clip_start c))
  end.

(** [exportCompilation], as far as captions go: [transcription] is the
    result handed over by the host; with [wantAsr] and no such result
    the clips' audio is transcribed, and a failure there leaves
    [captionSegments] at [null]. *)
Definition captionSegmentsOf (transcription : option AsrResult)
    (wantAsr : bool) (transcribePCM : option AsrResult)
    : option (list Segment) :=
  match transcription with
  | Some r => extractSegments (Some r)
  | None => if wantAsr then extractSegments transcribePCM else None
  end.

Definition exportCompilation (clips : list (Clip * list Q))
    (transcription : option AsrResult) (wantAsr : bool)
    (transcribePCM : option AsrResult) : list Lookup :=
  let captionSegments :=
    captionSegmentsOf transcription wantAsr transcribePCM in
  renderTimeline clips captionSegments 0.

(* ================================================================== *)
(** ** Vocabulary of the properties *)

(** *** Sorting *)

(** [a] may stand before [b] in an array sorted with [cmp]. *)
Definition cmp_le {A : Type} (cmp : A -> A -> Q) (a b : A) : Prop :=
  cmp a b <= 0.

(** *** detectPeaks *)

(** Peaks at different positions are increasing and at least [d] apart. *)
Definition spaced (d : Q) (peaks : list nat) : Prop :=
  forall a b x y, (a < b)%nat -> peaks !! a = Some x -> peaks !! b = Some y ->
    (x < y)%nat /\ d <= indexDiff y x.

(** [x] is not beyond the last accepted peak. *)
Definition belowLast (lastIdx : lastIndex) (x : nat) : Prop :=
  match lastIdx with
  | NegInfinity => False
  | LastAt l => (x <= l)%nat
  end.

(** What the loop of [detectPeaks] on an array of length [n] maintains
    before it visits index [i]: the accepted peaks are inner indices below
    [i], none is beyond the last accepted one, and they are spaced. *)
Definition peaksInv (n : nat) (d : Q) (i : nat) (st : list nat * lastIndex)
    : Prop :=
  (forall x, x ∈ st.1 -> (1 <= x < i)%nat /\ (x + 2 <= n)%nat
                         /\ belowLast st.2 x)
  /\ spaced d st.1.

(** *** movingAverage *)

(** The sum and the mean of a list of numbers. *)
Definition sumOf (l : list Q) : Q := fold_left Qplus l 0.

Definition mean (l : list Q) : Q := sumOf l / len l.

(** What the loop of [movingAverage] maintains before it visits index
    [i]: [out] keeps its length, [sum] is the sum of the first [i] entries
    as long as none has left the window, and the entries of [out] below
    [i] and below [k] are the means of the prefixes. *)
Definition averageInv (arr : list Q) (k : nat) (i : nat) (st : Q * list Q)
    : Prop :=
  length st.2 = length arr
  /\ ((i <= k)%nat -> st.1 = sumOf (take i arr))
  /\ (forall j, (j < i)%nat -> (j < k)%nat ->
        st.2 !! j = Some (sumOf (take (S j) arr)
                          / inject_Z (Z.of_nat (Nat.min (j + 1) k)))).

(** *** extractSegments *)

(** A chunk that carries no time under any of the probed field names. *)
Definition noTimestamp (ch : Chunk) : Prop :=
  ch_timestamp ch = None /\ ch_time ch = None
  /\ ch_timestart ch = None /\ ch_timeend ch = None
  /\ ch_start ch = None /\ ch_end ch = None.

(** The segment from 0 to an effectively unbounded end. *)
Definition fallbackSegment (text : string) : Segment :=
  {| seg_start := 0; seg_end := unboundedEnd; seg_text := text |}.

(** The chunks [{ text }] and [{ start, end, text }]. *)
Definition textOnlyChunk (text : string) : Chunk :=
  {| ch_timestamp := None; ch_time := None;
     ch_timestart := None; ch_timeend := None;
     ch_start := None; ch_end := None;
     ch_text := Some text; ch_chunk := None; ch_raw_text := None |}.

Definition timedChunk (start end_ : Q) (text : string) : Chunk :=
  {| ch_timestamp := None; ch_time := None;
     ch_timestart := None; ch_timeend := None;
     ch_start := Some start; ch_end := Some end_;
     ch_text := Some text; ch_chunk := None; ch_raw_text := None |}.

(** [{ text: "hello", chunks: [{ text: "hello" }] }] and [{ text: "" }]. *)
Definition helloChunked : AsrResult :=
  {| asr_text := Some "hello"%string;
     asr_chunks := Some [textOnlyChunk "hello"];
     asr_segments := None |}.

Definition emptyTextOnly : AsrResult :=
  {| asr_text := Some EmptyString; asr_chunks := None; asr_segments := None |}.

(** *** The peak threshold *)

(** A silent curve. *)
Definition allZero : list Q := [0; 0; 0; 0; 0].

(** *** mapGlobalTimeToFileRange *)

(** The offsets that the loop of [analyzeVideos] pushes, starting from
    the running [offset]. *)
Fixpoint offsetsFrom (offset : Q) (perFileResults : list PerFileResult)
    : list Q :=
  match perFileResults with
  | [] => []
  | res :: later => offset :: offsetsFrom (offset + pf_duration res) later
  end.

(** No file has a negative duration. *)
Definition nonNegative (perFileResults : list PerFileResult) : Prop :=
  Forall (fun res => 0 <= pf_duration res) perFileResults.

(** Two files of 10 s and 15 s. *)
Definition twoFiles : list PerFileResult :=
  [ {| pf_fileIndex := 0; pf_duration := 10 |};
    {| pf_fileIndex := 1; pf_duration := 15 |} ].

(** *** The clips of analyzeVideos *)

(** The entry of [perFileResults] pushed for a file and its index. *)
Definition perFileOf (file : nat * DecodedFile) : PerFileResult :=
  {| pf_fileIndex := file.1; pf_duration := df_duration file.2 |}.

(** What the specification asks of an output clip:
    [0 <= start < end <= fileDuration[fileIndex]] and
    [end - start >= 0.5]. *)
Definition clipWithinFile (videoFiles : list DecodedFile) (c : Clip) : Prop :=
  exists f, videoFiles !! fileIndex c = Some f
    /\ 0 <= clip_start c
    /\ clip_start c < clip_end c
    /\ clip_end c <= df_duration f
    /\ 1 # 2 <= clip_end c - clip_start c.

(** One second of audio whose smoothed energy peaks at 0.8 s. *)
Definition lateBurst : list DecodedFile :=
  [ {| df_rms := [0; 0; 0; 0; 5; 0; 0; 0; 10; 0]; df_duration := 1 |} ].

(** *** dedupeClips *)

(** The test that makes [dedupeClips] push [c] after [l]. *)
Definition apart (gap : Q) (l c : Clip) : bool :=
  negb (fileIndex l =? fileIndex c)%nat
  || Qle_bool gap (clip_start c - clip_end l).

(** The clip that [last.end = Math.max(last.end, c.end)] leaves. *)
Definition merged (l c : Clip) : Clip :=
  {| fileIndex := fileIndex l;
     clip_start := clip_start l;
     clip_end := Math_max (clip_end l) (clip_end c) |}.

(** Two neighbours of the merged list: in order, and apart. *)
Definition link (gap : Q) (a b : Clip) : Prop :=
  cmp_le clipCompare a b /\ apart gap a b = true.

(** A clip the final floor leaves as it is. *)
Definition longEnough (c : Clip) : Prop :=
  0 <= clip_start c /\ clip_start c + (1 # 2) <= clip_end c.

(** A clip of 0.1 s and a clip 1.1 s after it, in one file. *)
Definition shortThenFar : list Clip :=
  [ {| fileIndex := 0; clip_start := 0; clip_end := 1 # 10 |};
    {| fileIndex := 0; clip_start := 12 # 10; clip_end := 2 |} ].

(** The clips of the merge scenario of the specification. *)
Definition overlapping : list Clip :=
  [ {| fileIndex := 0; clip_start := 1; clip_end := 3 |};
    {| fileIndex := 0; clip_start := 2; clip_end := 4 |};
    {| fileIndex := 0; clip_start := 6; clip_end := 7 |} ].

(** *** The caption cursor *)

(** What a caption lookup at export time [t] with cursor [idx] has to
    satisfy: every segment before [idx] ends before [t], the segment at
    [idx], if there is one, does not, and a caption is drawn only from
    the segment at [idx] and only when [t] lies within it. *)
Definition selects (segs : list Segment) (lk : Lookup) : Prop :=
  (forall j seg, (j < lk_segIdx lk)%nat -> segs !! j = Some seg ->
     seg_end seg < lk_tExport lk)
  /\ (lk_segIdx lk <= length segs)%nat
  /\ (forall seg, segs !! lk_segIdx lk = Some seg ->
        lk_tExport lk <= seg_end seg)
  /\ (forall text, lk_drawn lk = Some text ->
        exists seg, segs !! lk_segIdx lk = Some seg
          /\ seg_text seg = text
          /\ seg_start seg <= lk_tExport lk
          /\ lk_tExport lk <= seg_end seg).

(** The value of [segIdx] when [draw] resolves (or runs out of observed
    frames). *)
Fixpoint cursorAfter (clip : Clip) (captionSegments : option (list Segment))
    (exportOffset : Q) (currentTimes : list Q) (segIdx : nat) : nat :=
  match currentTimes with
  | [] => segIdx
  | currentTime :: later =>
      if Qle_bool (clip_end clip) currentTime then segIdx
      else
        match captionSegments with
        | Some (seg0 :: segs') =>
            let segs := seg0 :: segs' in
            let tExport := exportOffset + (currentTime - clip_start clip) in
            cursorAfter clip captionSegments exportOffset later
              (advance segs tExport segIdx)
        | _ => cursorAfter clip captionSegments exportOffset later segIdx
        end
  end.

(** The compositor in the words of the specification: one cursor for the
    whole run, which each clip takes over from the clip before it and
    which is never set back. *)
Fixpoint renderTimeline_oneCursor (clips : list (Clip * list Q))
    (captionSegments : option (list Segment)) (exportOffset : Q)
    (segIdx : nat) : list Lookup :=
  match clips with
  | [] => []
  | (c, currentTimes) :: later =>
      draw c captionSegments exportOffset currentTimes segIdx
      ++ renderTimeline_oneCursor later captionSegments
           (exportOffset + (clip_end c - clip_start c))
           (cursorAfter c captionSegments exportOffset currentTimes segIdx)
  end.

(** Two clips of 2 s, each drawn at three playback positions, and two
    captions, [0, 1] and [1, 3] in export time. *)
Definition twoClips : list (Clip * list Q) :=
  [ ({| fileIndex := 0; clip_start := 0; clip_end := 2 |}, [0; 1; 2]);
    ({| fileIndex := 0; clip_start := 5; clip_end := 7 |}, [5; 6; 7]) ].

Definition twoCaptions : AsrResult :=
  {| asr_text := None;
     asr_chunks := Some [timedChunk 0 1 "a"; timedChunk 1 3 "b"];
     asr_segments := None |}.

(* ================================================================== *)
(** ** Vocabulary of the further properties *)

(** *** detectPeaks *)

(** Index [x] is the first one that passes the test of [detectPeaks]. *)
Definition firstPeak (arr : list Q) (threshold : Q) (x : nat) : Prop :=
  (1 <= x)%nat /\ isPeak arr threshold x = true
  /\ forall y, (1 <= y < x)%nat -> isPeak arr threshold y = false.

(** Before the loop visits [i]: every accepted index passes the test. *)
Definition soundInv (arr : list Q) (threshold : Q) (i : nat)
    (st : list nat * lastIndex) : Prop :=
  forall x, x ∈ st.1 -> isPeak arr threshold x = true.

(** Before the loop visits [i], for a distance of at most 2: every index
    below [i] that passes the test is accepted, and the last accepted
    index passes the test. *)
Definition completeInv (arr : list Q) (threshold : Q) (i : nat)
    (st : list nat * lastIndex) : Prop :=
  (forall x, (1 <= x < i)%nat -> isPeak arr threshold x = true -> x ∈ st.1)
  /\ (forall l, st.2 = LastAt l ->
        (1 <= l < i)%nat /\ isPeak arr threshold l = true).

(** Before the loop visits [i]: nothing is accepted until an index
    passes the test, and the first one that does heads the result. *)
Definition firstInv (arr : list Q) (threshold : Q) (i : nat)
    (st : list nat * lastIndex) : Prop :=
  ((forall y, (1 <= y < i)%nat -> isPeak arr threshold y = false) ->
     st = ([], NegInfinity))
  /\ (forall x, (x < i)%nat -> firstPeak arr threshold x ->
        head st.1 = Some x).

(** *** movingAverage *)

(** The samples that the average at index [i] covers: the last [k]
    samples up to [i], or all [i + 1] of them while there are fewer. *)
Definition window (arr : list Q) (k i : nat) : list Q :=
  take (Nat.min (i + 1) k) (drop (i + 1 - k) arr).

(** Before the loop visits [i]: [sum] is the sum of the (at most [k])
    samples before [i], and every entry of [out] below [i] is the sum of
    its window over the size of the window. *)
Definition windowInv (arr : list Q) (k : nat) (i : nat) (st : Q * list Q)
    : Prop :=
  st.1 == sumOf (take (Nat.min i k) (drop (i - k) arr))
  /\ length st.2 = length arr
  /\ (forall j, (j < i)%nat ->
        exists v, st.2 !! j = Some v
          /\ v == sumOf (window arr k j)
                  / inject_Z (Z.of_nat (Nat.min (j + 1) k))).

(** *** dedupeClips *)

(** The order of the sort: by file, then by start. *)
Definition fileThenStart (a b : Clip) : Prop :=
  (fileIndex a < fileIndex b)%nat
  \/ (fileIndex a = fileIndex b /\ clip_start a <= clip_start b).

(** Some clip of [out] is in the file of [c], starts no later and ends
    no earlier. *)
Definition covers (out : list Clip) (c : Clip) : Prop :=
  exists o, o ∈ out /\ fileIndex o = fileIndex c
    /\ clip_start o <= clip_start c /\ clip_end c <= clip_end o.

(** [o] takes its file and start from one clip of [done] and its end
    from a clip of [done] in the same file. *)
Definition madeFrom (done : list Clip) (o : Clip) : Prop :=
  exists c c', c ∈ done /\ c' ∈ done
    /\ fileIndex o = fileIndex c /\ clip_start o = clip_start c
    /\ fileIndex o = fileIndex c' /\ clip_end o = clip_end c'.

(** *** mapGlobalTimeToFileRange *)

(** The durations of the files, and their sum from a running offset. *)
Definition durations (perFileResults : list PerFileResult) : list Q :=
  map pf_duration perFileResults.

Definition totalFrom (offset : Q) (perFileResults : list PerFileResult) : Q :=
  fold_left Qplus (durations perFileResults) offset.

(** *** analyzeVideos *)

(** The smoothed curve of one file, as the first loop computes it. *)
Definition smoothOf (f : DecodedFile) : list Q := movingAverage (df_rms f) 5.

(** A file without any audio energy. *)
Definition silent (f : DecodedFile) : Prop :=
  Forall (fun x => x == 0) (df_rms f).

(** *** The export timeline *)

(** [clips.reduce((acc, c) => acc + (c.end - c.start), 0)] of
    [prepareAudioGraph] (line 167), from a running offset; the rendering
    loop adds the same durations to [exportOffset]. *)
Definition offsetAfter (exportOffset : Q) (clips : list Clip) : Q :=
  fold_left (fun acc c => acc + (clip_end c - clip_start c)) clips exportOffset.

Definition durationSec (clips : list Clip) : Q := offsetAfter 0 clips.

(** The playback of a clip goes forward from its start: the positions
    that [draw] reads do not decrease and are not before [clip.start],
    and the clip does not end before it starts. *)
Definition playsForward (c : Clip * list Q) : Prop :=
  clip_start c.1 <= clip_end c.1
  /\ Sorted Qle c.2
  /\ Forall (fun currentTime => clip_start c.1 <= currentTime) c.2.

(** A chunk as Whisper gives it: [{ text, timestamp: [start, end] }],
    without the fields [time], [timestart] and [timeend]. *)
Definition whisperChunk (ch : Chunk) : Prop :=
  (exists ts, ch_timestamp ch = Some ts)
  /\ ch_timestart ch = None /\ ch_timeend ch = None.

(** The text of a lookup is what [captionAt] gives for its time and
    cursor. *)
Definition drawnByCursor (segs : list Segment) (lk : Lookup) : Prop :=
  lk_drawn lk = captionAt segs (lk_tExport lk) (lk_segIdx lk).

(** The chunk [{ text, timestamp: [s, e] }] and a result made of two. *)
Definition whisperChunkOf (s e : Q) (text : string) : Chunk :=
  {| ch_timestamp := Some (Some s, Some e); ch_time := None;
     ch_timestart := None; ch_timeend := None;
     ch_start := None; ch_end := None;
     ch_text := Some text; ch_chunk := None; ch_raw_text := None |}.

Definition whisperCaptions : AsrResult :=
  {| asr_text := Some "a b"%string;
     asr_chunks := Some [whisperChunkOf 0 1 "a"; whisperChunkOf 1 3 "b"];
     asr_segments := None |}.

(* ================================================================== *)
(** ** More of export.js and utils.js *)

(** [{ sx, sy, sWidth, sHeight, dx, dy, dWidth, dHeight }] *)
Record CoverRect : Type := mkCoverRect {
  sx : Q; sy : Q; sWidth : Q; sHeight : Q;
  dx : Q; dy : Q; dWidth : Q; dHeight : Q
}.

(** [computeCoverRect(srcW, srcH, dstW, dstH)] (export.js and app.js). *)
Definition computeCoverRect (srcW srcH dstW dstH : Q) : CoverRect :=
  let srcAspect := srcW / srcH in
  let dstAspect := dstW / dstH in
  let sWidth := if Qlt_bool dstAspect srcAspect then srcH * dstAspect
                else srcW in
  let sHeight := if Qlt_bool dstAspect srcAspect then srcH
                 else srcW / dstAspect in
  let sx := (srcW - sWidth) / 2 in
  let sy := (srcH - sHeight) / 2 in
  {| sx := sx; sy := sy; sWidth := sWidth; sHeight := sHeight;
     dx := 0; dy := 0; dWidth := dstW; dHeight := dstH |}.

(** [x || d] for a number read from an array: [undefined] and 0 give
    [d]. *)
Definition orNum (x : option Q) (d : Q) : Q :=
  match x with
  | Some v => if Qeq_bool v 0 then d else v
  | None => d
  end.

(** [arr[i0]] for a number [i0] that [Math.floor] gave. *)
Definition atZ (arr : list Q) (i0 : Z) : option Q :=
  if (i0 <? 0)%Z then None else arr !! Z.to_nat i0.

(** The body of the loop of [resampleMonoPCM] (and of the resampling in
    [decodeClipsAudioToPCM]): the value stored in [out[i]]. *)
Definition interpolate (sourcePCM : list Q) (ratio : Q) (i : nat) : Q :=
  let idx := inject_Z (Z.of_nat i) * ratio in
  let i0 := Math_floor idx in
  let frac := idx - inject_Z i0 in
  let v0 := orNum (atZ sourcePCM i0) 0 in
  let v1 := orNum (atZ sourcePCM (i0 + 1)) v0 in
  v0 + (v1 - v0) * frac.

(** [resampleMonoPCM(sourcePCM, sourceRate, targetRate)] for positive
    rates; the rounding of the [Float32Array] is outside the model. *)
Definition resampleMonoPCM (sourcePCM : list Q) (sourceRate targetRate : Q)
    : list Q :=
  if Qeq_bool sourceRate targetRate then sourcePCM
  else
    let ratio := sourceRate / targetRate in
    let length := Z.to_nat (Math_floor (len sourcePCM / ratio)) in
    map (interpolate sourcePCM ratio) (seq 0 length).

(** [computeRMS(buffer, windowSize, hop)].  [Math.sqrt] has no exact
    counterpart on the rationals and is a parameter of the model.  The
    [for] loop is run with fuel; it terminates for [hop >= 1], and
    [buffer.length + 1] rounds are then enough. *)
Section RMS.
Variable Math_sqrt : Q -> Q.

(** The inner loop: the sum of the squares of the window at [i]. *)
Definition sumSquares (buffer : list Q) (i windowSize : nat) : Q :=
  fold_left (fun sum j => let v := at_ buffer (i + j) in sum + v * v)
    (seq 0 windowSize) 0.

Definition rmsAt (buffer : list Q) (windowSize i : nat) : Q :=
  Math_sqrt (sumSquares buffer i windowSize / inject_Z (Z.of_nat windowSize)).

Fixpoint computeRMS_loop (fuel : nat) (buffer : list Q)
    (windowSize hop i : nat) (rms : list Q) : list Q :=
  match fuel with
  | O => rms
  | S fuel' =>
      if (i + windowSize <=? length buffer)%nat
      then computeRMS_loop fuel' buffer windowSize hop (i + hop)
             (rms ++ [rmsAt buffer windowSize i])
      else rms
  end.

Definition computeRMS (buffer : list Q) (windowSize hop : nat) : list Q :=
  computeRMS_loop (S (length buffer)) buffer windowSize hop 0 [].
End RMS.

(** The number of windows from position [i] on. *)
Definition windowsFrom (n windowSize hop i : nat) : nat :=
  if (i + windowSize <=? n)%nat then (n - windowSize - i) / hop + 1 else 0.

(** [wrapText(ctx, text, maxWidth)], from the words that
    [String(text || '').split(/\s+/)] gives: the loop and the final push.
    [ctx.measureText(s).width] is a parameter of the model. *)
Section Canvas.
Variable measureText : string -> Q.

(** A string is truthy when it is not empty. *)
Definition nonEmpty (s : string) : bool := negb (String.eqb s EmptyString).

Definition wrapText_step (maxWidth : Q) (st : list string * string)
    (word : string) : list string * string :=
  let '(lines, line) := st in
  let test := if nonEmpty line then (line ++ " " ++ word)%string else word in
  let w := measureText test in
  if Qlt_bool maxWidth w && nonEmpty line then (lines ++ [line], word)
  else (lines, test).

Definition wrapText (words : list string) (maxWidth : Q) : list string :=
  let '(lines, line) :=
    fold_left (wrapText_step maxWidth) words ([], EmptyString) in
  if nonEmpty line then lines ++ [line] else lines.
End Canvas.

(** The lines laid out so far, the current one included, when it is not
    empty. *)
Definition laidOut (st : list string * string) : list string :=
  if nonEmpty st.2 then st.1 ++ [st.2] else st.1.

(** A line is as wide as allowed, or it is a single word. *)
Definition fitsOrWord (measureText : string -> Q) (maxWidth : Q)
    (words : list string) (line : string) : Prop :=
  measureText line <= maxWidth \/ line ∈ words.

(** [Math.round(x)]: the nearest integer, a tie going up. *)
Definition Math_round (x : Q) : Z := Qfloor (x + (1 # 2)).

(** [String(n)] for a natural number, and the reading of a decimal
    numeral. *)
Definition decimal (n : nat) : string :=
  NilEmpty.string_of_uint (Nat.to_uint n).

Definition parseDecimal (s : string) : option nat :=
  option_map Nat.of_uint (NilEmpty.uint_of_string s).

(** [s.padStart(2, '0')] *)
Definition padStart2 (s : string) : string :=
  match String.length s with
  | 0%nat => "00"%string
  | 1%nat => ("0" ++ s)%string
  | _ => s
  end.

(** [formatSeconds(seconds)], for seconds up to [2^53]: there
    [Math.round] gives an integer that a double holds exactly,
    [Math.floor(s / 60)] is the integer quotient and [String] prints
    plain digits.  (Beyond, the division rounds and [String] switches
    to the exponent form.) *)
Definition formatSeconds (seconds : Q) : string :=
  let s := Z.to_nat (Z.max 0 (Math_round seconds)) in
  let m := (s / 60)%nat in
  let r := (s mod 60)%nat in
  (decimal m ++ ":" ++ padStart2 (decimal r))%string.

(* ================================================================== *)
(** ** Scenarios of the specification *)

Example movingAverage_scenario :
  movingAverage [1; 2; 3; 4; 5; 6; 7] 3
  = [1 / 1; 3 / 2; 6 / 3; 9 / 3; 12 / 3; 15 / 3; 18 / 3].
Proof. vm_compute. reflexivity. Qed.

Example detectPeaks_scenario :
  detectPeaks [0; 1; 5; 1; 0; 1; 6; 1; 0] 2 2 = [2; 6]%nat.
Proof. reflexivity. Qed.

Example dedupeClips_scenario :
  dedupeClips overlapping 1
  = [ {| fileIndex := 0; clip_start := 1; clip_end := 4 |};
      {| fileIndex := 0; clip_start := 6; clip_end := 7 |} ].
Proof. reflexivity. Qed.

(* ================================================================== *)
(** ** Numbers *)

Lemma Qlt_bool_iff a b : Qlt_bool a b = true <-> a < b.
Proof.
  unfold Qlt_bool. rewrite negb_true_iff.
  destruct (Qle_bool b a) eqn:E.
  - apply Qle_bool_iff in E. split; [discriminate | lra].
  - split; [|reflexivity]. intros _.
    destruct (Qlt_le_dec a b) as [H|H]; [exact H|].
    apply Qle_bool_iff in H. congruence.
Qed.

Lemma Math_max_cases a b :
  (a <= b /\ Math_max a b = b) \/ (b < a /\ Math_max a b = a).
Proof.
  unfold Math_max. destruct (Qle_bool a b) eqn:E.
  - left. apply Qle_bool_iff in E. auto.
  - right. split; [|reflexivity].
    destruct (Qlt_le_dec b a) as [H|H]; [exact H|].
    apply Qle_bool_iff in H. congruence.
Qed.

Lemma Math_min_cases a b :
  (a <= b /\ Math_min a b = a) \/ (b < a /\ Math_min a b = b).
Proof.
  unfold Math_min. destruct (Qle_bool a b) eqn:E.
  - left. apply Qle_bool_iff in E. auto.
  - right. split; [|reflexivity].
    destruct (Qlt_le_dec b a) as [H|H]; [exact H|].
    apply Qle_bool_iff in H. congruence.
Qed.

(* ================================================================== *)
(** ** Loops over an index range *)

(** An invariant [P i st] of a [for (i = a; i < a + n; i++)] loop. *)
Lemma fold_left_seq_inv {S : Type} (f : S -> nat -> S)
    (P : nat -> S -> Prop) (n a : nat) (s : S) :
  P a s ->
  (forall i st, (a <= i < a + n)%nat -> P i st -> P (Datatypes.S i) (f st i)) ->
  P (a + n)%nat (fold_left f (seq a n) s).
Proof.
  revert a s. induction n as [|n IH]; intros a s H0 Hstep; simpl.
  - now rewrite Nat.add_0_r.
  - replace (a + Datatypes.S n)%nat with (Datatypes.S a + n)%nat by lia.
    apply IH.
    + apply Hstep; [lia | exact H0].
    + intros i st Hi. apply Hstep. lia.
Qed.

(* ================================================================== *)
(** ** detectPeaks *)

Lemma spaced_snoc d peaks i :
  spaced d peaks ->
  (forall x, x ∈ peaks -> (x < i)%nat /\ d <= indexDiff i x) ->
  spaced d (peaks ++ [i]).
Proof.
  intros Hs Hall a b x y Hab Ha Hb.
  apply lookup_snoc_Some in Hb as [[Hlt Hb] | [Hlen ->]].
  - rewrite lookup_app_l in Ha by lia. eauto.
  - rewrite lookup_app_l in Ha by lia.
    apply Hall. eapply list_elem_of_lookup_2; eauto.
Qed.

Lemma detectPeaks_step_inv arr threshold d i st :
  (1 <= i)%nat -> (i + 2 <= length arr)%nat ->
  peaksInv (length arr) d i st ->
  peaksInv (length arr) d (S i) (detectPeaks_step arr threshold d st i).
Proof.
  intros H1 H2 [Hin Hsp]. destruct st as [peaks lastIdx]; simpl in *.
  assert (Hkeep : peaksInv (length arr) d (S i) (peaks, lastIdx)).
  { split; [|exact Hsp]. intros x Hx. specialize (Hin x Hx). simpl. intuition lia. }
  unfold detectPeaks_step.
  destruct (isPeak arr threshold i); [|exact Hkeep].
  destruct (farEnough i lastIdx d) eqn:Hfar; [|exact Hkeep].
  split; simpl.
  - intros x Hx. apply elem_of_app in Hx as [Hx | Hx].
    + specialize (Hin x Hx). intuition lia.
    + apply list_elem_of_singleton in Hx as ->. intuition lia.
  - apply spaced_snoc; [exact Hsp|].
    intros x Hx. destruct (Hin x Hx) as ([_ Hlt] & _ & Hlast).
    split; [exact Hlt|].
    destruct lastIdx as [|l]; simpl in *; [contradiction|].
    apply Qle_bool_iff in Hfar.
    apply Qle_trans with (indexDiff i l); [exact Hfar|].
    unfold indexDiff. rewrite <- Zle_Qle. lia.
Qed.

Lemma detectPeaks_inv arr threshold d :
  peaksInv (length arr) d (1 + (length arr - 2))
    (fold_left (detectPeaks_step arr threshold d)
       (seq 1 (length arr - 2)) ([], NegInfinity)).
Proof.
  apply (fold_left_seq_inv (detectPeaks_step arr threshold d)
           (peaksInv (length arr) d)).
  - split.
    + intros x Hx. inversion Hx.
    + intros a b x y _ Ha. discriminate Ha.
  - intros i st Hi. apply detectPeaks_step_inv; lia.
Qed.

(** C7.  For every curve, threshold and minimum distance [d], two
    indices that [detectPeaks] returns at different positions differ by
    at least [d]; in particular, with the distance 3 that [analyzeVideos]
    passes, no two returned peaks are less than 3 samples apart. *)
Theorem detectPeaks_min_distance (arr : list Q) (threshold : Q) (d : Q)
    (a b : nat) :
  (a < b)%nat ->
  (forall x y,
     detectPeaks arr threshold d !! a = Some x ->
     detectPeaks arr threshold d !! b = Some y ->
     d <= indexDiff y x)
  /\ (forall x y,
        detectPeaks arr threshold 3 !! a = Some x ->
        detectPeaks arr threshold 3 !! b = Some y ->
        (x + 3 <= y)%nat).
Proof.
  intros Hab. split; intros x y Hx Hy.
  - destruct (detectPeaks_inv arr threshold d) as [_ Hsp].
    exact (proj2 (Hsp a b x y Hab Hx Hy)).
  - destruct (detectPeaks_inv arr threshold 3) as [_ Hsp].
    destruct (Hsp a b x y Hab Hx Hy) as [_ H3].
    unfold indexDiff in H3. change 3 with (inject_Z 3) in H3.
    rewrite <- Zle_Qle in H3. lia.
Qed.

Lemma detectPeaks_min_distance_witness :
  detectPeaks [0; 1; 5; 1; 0; 1; 6; 1; 0] 2 3 !! 0%nat = Some 2%nat
  /\ detectPeaks [0; 1; 5; 1; 0; 1; 6; 1; 0] 2 3 !! 1%nat = Some 6%nat
  /\ (2 + 3 <= 6)%nat.
Proof.
  split; [reflexivity|]. split; [reflexivity|].
  apply (proj2 (detectPeaks_min_distance
                  [0; 1; 5; 1; 0; 1; 6; 1; 0] 2 3 0 1 ltac:(lia)));
    reflexivity.
Defined.

(** C10.  For every array, threshold and minimum distance, every index
    [i] that [detectPeaks] returns satisfies [1 <= i <= length - 2]: the
    first and the last sample of the curve are never selected. *)
Theorem detectPeaks_inner_indices (arr : list Q) (threshold : Q) (d : Q)
    (i : nat) :
  In i (detectPeaks arr threshold d) ->
  (1 <= i)%nat /\ (i <= length arr - 2)%nat
  /\ i <> 0%nat /\ i <> (length arr - 1)%nat.
Proof.
  intros Hi. apply list_elem_of_In in Hi.
  destruct (detectPeaks_inv arr threshold d) as [Hin _].
  destruct (Hin i Hi) as (H1 & H2 & _). lia.
Qed.

Lemma detectPeaks_inner_indices_witness :
  In 6%nat (detectPeaks [0; 1; 5; 1; 0; 1; 6; 1; 0] 2 2)
  /\ (1 <= 6)%nat /\ (6 <= 9 - 2)%nat.
Proof.
  assert (H : In 6%nat (detectPeaks [0; 1; 5; 1; 0; 1; 6; 1; 0] 2 2)).
  { right. left. reflexivity. }
  split; [exact H|].
  destruct (detectPeaks_inner_indices _ _ _ _ H) as (H1 & H2 & _).
  split; [exact H1 | exact H2].
Defined.

(* ================================================================== *)
(** ** movingAverage *)

Lemma sumOf_take_S arr i x :
  arr !! i = Some x -> sumOf (take (S i) arr) = sumOf (take i arr) + x.
Proof.
  intros Hx. unfold sumOf.
  rewrite (take_S_r _ _ _ Hx), fold_left_app. reflexivity.
Qed.

Lemma movingAverage_step_inv arr k i st :
  (i < length arr)%nat ->
  averageInv arr k i st ->
  averageInv arr k (S i) (movingAverage_step arr k st i).
Proof.
  intros Hi (Hlen & Hsum & Hout). destruct st as [sum out]; simpl in *.
  destruct (lookup_lt_is_Some_2 arr i Hi) as [x Hx].
  unfold movingAverage_step, averageInv; simpl.
  split; [now rewrite length_insert|]. split.
  - intros Hk. destruct (Nat.leb_spec k i); [lia|].
    rewrite (sumOf_take_S _ _ _ Hx), Hsum by lia.
    unfold at_. now rewrite Hx.
  - intros j Hj Hjk. destruct (decide (j = i)) as [->|Hne].
    + rewrite list_lookup_insert_eq by lia.
      destruct (Nat.leb_spec k i); [lia|].
      rewrite (sumOf_take_S _ _ _ Hx), Hsum by lia.
      unfold at_. now rewrite Hx.
    + rewrite list_lookup_insert_ne by congruence. apply Hout; lia.
Qed.

Lemma movingAverage_inv arr k :
  averageInv arr k (0 + length arr)
    (fold_left (movingAverage_step arr k) (seq 0 (length arr))
       (0, replicate (length arr) 0)).
Proof.
  apply (fold_left_seq_inv (movingAverage_step arr k) (averageInv arr k)).
  - split; [apply length_replicate|]. split.
    + reflexivity.
    + intros j Hj. lia.
  - intros i st Hi. apply movingAverage_step_inv. lia.
Qed.

(** C8.  For every array [c] and window size [k], [movingAverage c k]
    is as long as [c], and at every index [i < k - 1] of [c] its entry is
    the mean of [c[0..i]]: the divisor is [min(i+1, k) = i + 1]. *)
Theorem movingAverage_length_and_head (c : list Q) (k : nat) :
  length (movingAverage c k) = length c
  /\ forall i, (i + 1 < k)%nat -> (i < length c)%nat ->
       exists v, movingAverage c k !! i = Some v
                 /\ v == mean (take (i + 1) c)
                 /\ Nat.min (i + 1) k = (i + 1)%nat.
Proof.
  destruct (movingAverage_inv c k) as (Hlen & _ & Hout).
  split; [exact Hlen|].
  intros i Hik Hi. eexists. split.
  - unfold movingAverage. apply Hout; lia.
  - split; [|lia]. unfold mean, len.
    rewrite length_take.
    replace (Nat.min (i + 1) (length c)) with (S i) by lia.
    replace (Nat.min (i + 1) k) with (S i) by lia.
    replace (i + 1)%nat with (S i) by lia. reflexivity.
Qed.

Lemma movingAverage_length_and_head_witness :
  exists v, movingAverage [1; 2; 3; 4; 5; 6; 7] 5 !! 2%nat = Some v
            /\ v == mean [1; 2; 3]
            /\ Nat.min (2 + 1) 5 = (2 + 1)%nat.
Proof.
  apply (proj2 (movingAverage_length_and_head [1; 2; 3; 4; 5; 6; 7] 5) 2%nat);
    simpl; lia.
Defined.

(* ================================================================== *)
(** ** runTranscriptionIfEnabled after analyzeVideos *)

Lemma analyzeVideos_sampleRate videoFiles minLen maxLen maxClips :
  an_sampleRate (analyzeVideos videoFiles minLen maxLen maxClips) = 10.
Proof.
  unfold analyzeVideos. now destruct (decodeAll videoFiles).
Qed.

Lemma runTranscription_low_rate getPipeline audioPCM sampleRate :
  sampleRate < 100 ->
  runTranscriptionIfEnabled getPipeline audioPCM sampleRate = None.
Proof.
  intros Hlt. unfold runTranscriptionIfEnabled.
  destruct (length audioPCM =? 0)%nat; [reflexivity|].
  destruct getPipeline as [asr|]; [|reflexivity].
  unfold Qlt_bool.
  destruct (Qle_bool 100 sampleRate) eqn:Hle; [|reflexivity].
  apply Qle_bool_iff in Hle. lra.
Qed.

(** C9.  For every input file list and every behaviour of the speech
    recogniser, [runTranscriptionIfEnabled] applied to the [audioPCM] and
    [sampleRate] that [analyzeVideos] returns gives [null]: the sample
    rate returned is 10, below the bound 100 under which the function
    returns before it transcribes. *)
Theorem analysis_transcription_is_null (videoFiles : list DecodedFile)
    (minLen maxLen maxClips : Q) (getPipeline : option Pipeline) :
  let analysis := analyzeVideos videoFiles minLen maxLen maxClips in
  an_sampleRate analysis = 10
  /\ runTranscriptionIfEnabled getPipeline
       (an_audioPCM analysis) (an_sampleRate analysis) = None.
Proof.
  intros analysis. subst analysis. split.
  - apply analyzeVideos_sampleRate.
  - apply runTranscription_low_rate.
    rewrite analyzeVideos_sampleRate. reflexivity.
Qed.

(* ================================================================== *)
(** ** extractSegments *)

(** C4, as stated, fails.  A result whose only chunk has a text and no
    timestamp, with full text ["hello"], has no chunk-level timestamp at
    all, and [extractSegments] gives the segment of that chunk, from 0 to
    0, not the fallback segment.  A result without chunks whose text is
    the empty string gives no segment. *)
Lemma extractSegments_fallback_counterexample :
  Forall noTimestamp (resultChunks helloChunked)
  /\ asr_text helloChunked = Some "hello"%string
  /\ extractSegments (Some helloChunked)
     = Some [{| seg_start := 0; seg_end := 0; seg_text := "hello" |}]
  /\ extractSegments (Some helloChunked) <> Some [fallbackSegment "hello"]
  /\ Forall noTimestamp (resultChunks emptyTextOnly)
  /\ extractSegments (Some emptyTextOnly) = Some [].
Proof.
  split; [repeat constructor|]. split; [reflexivity|].
  split; [reflexivity|]. split; [discriminate|].
  split; [constructor | reflexivity].
Qed.

(** C4, amended.  For every transcription result that has no chunk at
    all ([chunks || segments || []] is empty) and whose full text is a
    non-empty string, [extractSegments] gives exactly one segment, from 0
    to [Number.MAX_SAFE_INTEGER / 1000], with the whole text; so does the
    result that has only the text ["hello"]. *)
Theorem extractSegments_fallback (r : AsrResult) (text : string) :
  resultChunks r = [] ->
  asr_text r = Some text ->
  text <> EmptyString ->
  extractSegments (Some r) = Some [fallbackSegment text]
  /\ extractSegments
       (Some {| asr_text := Some "hello"%string;
                asr_chunks := None; asr_segments := None |})
     = Some [{| seg_start := 0;
                seg_end := 9007199254740991 / 1000;
                seg_text := "hello" |}].
Proof.
  intros Hch Htext Hne. split; [|reflexivity].
  unfold extractSegments. rewrite Hch, Htext. simpl.
  destruct (String.eqb_spec text EmptyString) as [->|_]; [congruence|].
  reflexivity.
Qed.

Lemma extractSegments_fallback_witness :
  extractSegments
    (Some {| asr_text := Some "hi there"%string;
             asr_chunks := Some []; asr_segments := None |})
  = Some [fallbackSegment "hi there"].
Proof.
  apply (extractSegments_fallback
           {| asr_text := Some "hi there"%string;
              asr_chunks := Some []; asr_segments := None |} "hi there");
    [reflexivity | reflexivity | discriminate].
Defined.

(* ================================================================== *)
(** ** Array.prototype.sort *)

Section ArraySort.
Context {A : Type} (cmp : A -> A -> Q).

Lemma sort_insert_perm x l : Permutation (sort_insert cmp x l) (x :: l).
Proof using Type.
  induction l as [|y l IH]; simpl; [reflexivity|].
  destruct (Qlt_bool 0 (cmp x y)); [|reflexivity].
  rewrite IH. apply perm_swap.
Qed.

Lemma Array_sort_perm l : Permutation (Array_sort cmp l) l.
Proof using Type.
  induction l as [|x l IH]; [reflexivity|].
  change (Array_sort cmp (x :: l)) with (sort_insert cmp x (Array_sort cmp l)).
  rewrite sort_insert_perm. now constructor.
Qed.

(** A sorted array is left as it is. *)
Lemma Array_sort_sorted_id l :
  Sorted (cmp_le cmp) l -> Array_sort cmp l = l.
Proof using Type.
  induction 1 as [|x l Hs IH Hhd]; [reflexivity|].
  change (Array_sort cmp (x :: l)) with (sort_insert cmp x (Array_sort cmp l)).
  rewrite IH.
  destruct Hhd as [|y l' Hxy]; simpl; [reflexivity|].
  destruct (Qlt_bool 0 (cmp x y)) eqn:E; [|reflexivity].
  apply Qlt_bool_iff in E. unfold cmp_le in Hxy. lra.
Qed.

(** The comparator is consistent: if [a] goes after [b], then [b] may
    stand before [a]. *)
Hypothesis cmp_total : forall a b, 0 < cmp a b -> cmp b a <= 0.

Lemma sort_insert_sorted x l :
  Sorted (cmp_le cmp) l -> Sorted (cmp_le cmp) (sort_insert cmp x l).
Proof using cmp_total.
  induction 1 as [|y l Hs IH Hhd]; simpl.
  - repeat constructor.
  - destruct (Qlt_bool 0 (cmp x y)) eqn:E.
    + apply Qlt_bool_iff in E. constructor; [exact IH|].
      destruct Hhd as [|z l' Hyz]; simpl.
      * constructor. now apply cmp_total.
      * destruct (Qlt_bool 0 (cmp x z)); constructor;
          [exact Hyz | now apply cmp_total].
    + constructor; [now constructor|]. constructor.
      unfold cmp_le. destruct (Qlt_le_dec 0 (cmp x y)) as [H|H]; [|exact H].
      apply Qlt_bool_iff in H. congruence.
Qed.

Lemma Array_sort_sorted l : Sorted (cmp_le cmp) (Array_sort cmp l).
Proof using cmp_total.
  induction l as [|x l IH]; [constructor|].
  change (Array_sort cmp (x :: l)) with (sort_insert cmp x (Array_sort cmp l)).
  now apply sort_insert_sorted.
Qed.
End ArraySort.

Lemma Sorted_weaken {A} (R R' : A -> A -> Prop) l :
  (forall a b, R a b -> R' a b) -> Sorted R l -> Sorted R' l.
Proof.
  intros HR. induction 1 as [|x l Hs IH Hhd]; constructor; [exact IH|].
  destruct Hhd; constructor; auto.
Qed.

Lemma numCompare_total a b : 0 < numCompare a b -> numCompare b a <= 0.
Proof. unfold numCompare. lra. Qed.

Lemma sort_numbers_sorted l : Sorted Qle (Array_sort numCompare l).
Proof.
  apply (Sorted_weaken (cmp_le numCompare)).
  - unfold cmp_le, numCompare. intros a b. lra.
  - apply Array_sort_sorted, numCompare_total.
Qed.

(* ================================================================== *)
(** ** The peak threshold *)

Lemma q80_index_lt (sorted : list Q) :
  sorted <> [] -> (q80_index sorted < length sorted)%nat.
Proof.
  intros Hne. unfold q80_index, Math_floor, len.
  assert (Hpos : (0 < length sorted)%nat) by (destruct sorted; simpl; [congruence | lia]).
  set (n := Z.of_nat (length sorted)).
  assert (Hn : (0 < n)%Z) by lia.
  assert (Hq : inject_Z 0 < inject_Z n) by (rewrite <- Zlt_Qlt; exact Hn).
  change (inject_Z 0) with 0 in Hq.
  assert (Hlo : (0 <= Qfloor (inject_Z n * (8 # 10)))%Z).
  { change 0%Z with (Qfloor 0). apply Qfloor_resp_le. lra. }
  assert (Hhi : (Qfloor (inject_Z n * (8 # 10)) < n)%Z).
  { rewrite Zlt_Qlt. eapply Qle_lt_trans; [apply Qfloor_le|]. lra. }
  lia.
Qed.

(** C5, as stated, fails.  The curve of five zeros is not empty, element
    [floor(0.8 * 5) = 4] of its sorted copy is 0, and the threshold is the
    constant 0.01: [sorted[4] || 0.01] takes the constant for a zero
    element as well. *)
Lemma peakThreshold_counterexample :
  allZero <> []
  /\ Array_sort numCompare allZero !! q80_index (Array_sort numCompare allZero)
     = Some 0
  /\ peakThreshold allZero = 1 # 100
  /\ ~ peakThreshold allZero == 0.
Proof.
  split; [discriminate|]. split; [reflexivity|]. split; [reflexivity|].
  intros H. vm_compute in H. discriminate H.
Qed.

(** C5, amended.  The threshold that [analyzeVideos] passes to
    [detectPeaks] is read from the ascending sorted copy of the global
    curve.  For every non-empty curve, element [floor(0.8 * length)] of
    that copy exists; the threshold is that element when it is not zero
    and the constant 0.01 when it is zero.  For the empty curve the
    threshold is 0.01. *)
Theorem peakThreshold_spec (globalAudio : list Q) :
  Sorted Qle (Array_sort numCompare globalAudio)
  /\ Permutation (Array_sort numCompare globalAudio) globalAudio
  /\ (globalAudio = [] -> peakThreshold globalAudio = 1 # 100)
  /\ (globalAudio <> [] ->
      exists v,
        Array_sort numCompare globalAudio
          !! Z.to_nat (Qfloor (len globalAudio * (8 # 10))) = Some v
        /\ (~ v == 0 -> peakThreshold globalAudio = v)
        /\ (v == 0 -> peakThreshold globalAudio = 1 # 100)).
Proof.
  split; [apply sort_numbers_sorted|].
  split; [apply Array_sort_perm|].
  split; [intros ->; reflexivity|].
  intros Hne.
  pose proof (Array_sort_perm numCompare globalAudio) as Hperm.
  assert (Hlen : length (Array_sort numCompare globalAudio) = length globalAudio)
    by (now apply Permutation_length).
  assert (Hne' : Array_sort numCompare globalAudio <> []).
  { intros E. rewrite E in Hlen. destruct globalAudio; [congruence|discriminate]. }
  pose proof (q80_index_lt _ Hne') as Hlt.
  destruct (lookup_lt_is_Some_2 _ _ Hlt) as [v Hv].
  exists v. unfold peakThreshold. rewrite Hv.
  unfold q80_index, Math_floor, len in Hv. rewrite Hlen in Hv.
  split; [exact Hv|].
  destruct (Qeq_bool v 0) eqn:E.
  - apply Qeq_bool_iff in E. split; [intros Hn; contradiction | reflexivity].
  - split; [reflexivity|]. intros Hz. apply Qeq_bool_iff in Hz. congruence.
Qed.

Lemma peakThreshold_spec_witness :
  exists v,
    Array_sort numCompare [3; 1; 4; 1; 5]
      !! Z.to_nat (Qfloor (len [3; 1; 4; 1; 5] * (8 # 10))) = Some v
    /\ (~ v == 0 -> peakThreshold [3; 1; 4; 1; 5] = v)
    /\ (v == 0 -> peakThreshold [3; 1; 4; 1; 5] = 1 # 100).
Proof.
  apply (proj2 (proj2 (proj2 (peakThreshold_spec [3; 1; 4; 1; 5])))).
  discriminate.
Defined.

(* ================================================================== *)
(** ** mapGlobalTimeToFileRange *)

Lemma videoOffsets_fold pfs offs offset :
  fst (fold_left videoOffsets_step pfs (offs, offset))
  = offs ++ offsetsFrom offset pfs.
Proof.
  revert offs offset. induction pfs as [|r pfs IH]; intros offs offset; simpl.
  - now rewrite app_nil_r.
  - rewrite IH, <- app_assoc. reflexivity.
Qed.

Lemma videoOffsets_from pfs : videoOffsets pfs = offsetsFrom 0 pfs.
Proof. unfold videoOffsets. now rewrite videoOffsets_fold. Qed.

Lemma offsetsFrom_ge pfs offset i off :
  nonNegative pfs -> offsetsFrom offset pfs !! i = Some off -> offset <= off.
Proof.
  intros Hnn. revert offset i.
  induction Hnn as [|r pfs Hr Hnn IH]; intros offset i Hi; [discriminate|].
  cbv beta in Hr. destruct i as [|i]; simpl in Hi.
  - injection Hi as <-. lra.
  - apply IH in Hi. lra.
Qed.

(** The global ranges of earlier files end at or before the offset of a
    later file. *)
Lemma offsetsFrom_before pfs offset j i off_j res_j off_i :
  nonNegative pfs -> (j < i)%nat ->
  offsetsFrom offset pfs !! j = Some off_j -> pfs !! j = Some res_j ->
  offsetsFrom offset pfs !! i = Some off_i ->
  off_j + pf_duration res_j <= off_i.
Proof.
  intros Hnn. revert offset j i.
  induction Hnn as [|r pfs Hr Hnn IH]; intros offset j i Hji Hj Hrj Hi;
    [discriminate|].
  destruct i as [|i]; [lia|]. destruct j as [|j]; simpl in *.
  - injection Hj as <-. injection Hrj as <-.
    eapply offsetsFrom_ge; eauto.
  - apply (IH (offset + pf_duration r) j i);
      [lia | exact Hj | exact Hrj | exact Hi].
Qed.

Lemma mapGlobalTime_loop_first start end_ pfs offsets n a i clip :
  (a <= i < a + n)%nat ->
  (forall j, (a <= j < i)%nat -> fileRangeAt start end_ pfs offsets j = None) ->
  fileRangeAt start end_ pfs offsets i = Some clip ->
  mapGlobalTime_loop start end_ pfs offsets (seq a n) = Some clip.
Proof.
  revert a. induction n as [|n IH]; intros a Hi Hbefore Hhit; [lia|].
  simpl. destruct (decide (a = i)) as [->|Hne].
  - now rewrite Hhit.
  - rewrite Hbefore by lia. apply IH; [lia | | exact Hhit].
    intros j Hj. apply Hbefore. lia.
Qed.

Lemma fileRangeAt_hit start end_ pfs offsets i off res :
  offsets !! i = Some off -> pfs !! i = Some res ->
  off <= start -> start < off + pf_duration res ->
  fileRangeAt start end_ pfs offsets i
  = Some {| fileIndex := i;
            clip_start := start - off;
            clip_end := Math_min (end_ - off) (pf_duration res) |}.
Proof.
  intros Hoff Hres Hle Hlt. unfold fileRangeAt. rewrite Hoff, Hres.
  apply Qle_bool_iff in Hle. apply Qlt_bool_iff in Hlt.
  now rewrite Hle, Hlt.
Qed.

Lemma fileRangeAt_Some start end_ pfs offsets i clip :
  fileRangeAt start end_ pfs offsets i = Some clip ->
  exists off res,
    offsets !! i = Some off /\ pfs !! i = Some res
    /\ off <= start /\ start < off + pf_duration res
    /\ clip = {| fileIndex := i;
                 clip_start := start - off;
                 clip_end := Math_min (end_ - off) (pf_duration res) |}.
Proof.
  unfold fileRangeAt. intros H.
  destruct (offsets !! i) as [off|]; [|discriminate].
  destruct (pfs !! i) as [res|]; [|discriminate].
  destruct (Qle_bool off start) eqn:Hle; [|discriminate].
  destruct (Qlt_bool start (off + pf_duration res)) eqn:Hlt; [|discriminate].
  simpl in H. injection H as <-.
  apply Qle_bool_iff in Hle. apply Qlt_bool_iff in Hlt.
  exists off, res. auto.
Qed.

(** C6.  With the offsets that [analyzeVideos] computes from durations
    that are not negative, a window whose start lies in the global range
    of file [i] is mapped to file [i] alone, with local start
    [start - offset_i] and local end [min(end - offset_i, duration_i)]:
    it is truncated, not split.  With files of 10 s and 15 s the global
    window [8, 14] gives file 0, local [8, 10]. *)
Theorem mapGlobalTime_not_split (perFileResults : list PerFileResult)
    (start end_ : Q) (i : nat) (off : Q) (res : PerFileResult) :
  nonNegative perFileResults ->
  videoOffsets perFileResults !! i = Some off ->
  perFileResults !! i = Some res ->
  off <= start -> start < off + pf_duration res ->
  mapGlobalTimeToFileRange start end_ perFileResults
    (videoOffsets perFileResults)
  = Some {| fileIndex := i;
            clip_start := start - off;
            clip_end := Math_min (end_ - off) (pf_duration res) |}
  /\ mapGlobalTimeToFileRange 8 14 twoFiles (videoOffsets twoFiles)
     = Some {| fileIndex := 0; clip_start := 8; clip_end := 10 |}.
Proof.
  intros Hnn Hoff Hres Hle Hlt. split; [|reflexivity].
  unfold mapGlobalTimeToFileRange.
  apply (mapGlobalTime_loop_first _ _ _ _ _ _ i).
  - apply lookup_lt_Some in Hres. lia.
  - intros j Hj.
    destruct (fileRangeAt start end_ perFileResults
                (videoOffsets perFileResults) j) as [clip|] eqn:E;
      [|reflexivity].
    apply fileRangeAt_Some in E as (off_j & res_j & Hoj & Hrj & _ & Hlt_j & _).
    rewrite videoOffsets_from in Hoj, Hoff.
    pose proof (offsetsFrom_before _ _ j i _ _ _ Hnn (proj2 Hj) Hoj Hrj Hoff).
    lra.
  - now apply fileRangeAt_hit.
Qed.

Lemma mapGlobalTime_not_split_witness :
  mapGlobalTimeToFileRange 12 30 twoFiles (videoOffsets twoFiles)
  = Some {| fileIndex := 1;
            clip_start := 12 - (0 + 10);
            clip_end := Math_min (30 - (0 + 10)) 15 |}.
Proof.
  apply (mapGlobalTime_not_split twoFiles 12 30 1 (0 + 10)
           {| pf_fileIndex := 1; pf_duration := 15 |}).
  - repeat constructor; simpl; lra.
  - reflexivity.
  - reflexivity.
  - lra.
  - simpl. lra.
Defined.

(* ================================================================== *)
(** ** The clips of analyzeVideos *)

(** An invariant of a [for (const x of l)] loop. *)
Lemma mapGlobalTime_loop_Some start end_ pfs offsets indices clip :
  mapGlobalTime_loop start end_ pfs offsets indices = Some clip ->
  exists i, fileRangeAt start end_ pfs offsets i = Some clip.
Proof.
  induction indices as [|i indices IH]; simpl; [discriminate|].
  destruct (fileRangeAt start end_ pfs offsets i) as [c|] eqn:E.
  - intros [= <-]. eauto.
  - exact IH.
Qed.

Lemma decode_fold l st :
  fst (fold_left decode_step l st) = fst st ++ map perFileOf l.
Proof.
  revert st. induction l as [|[i f] l IH]; intros [pfs g]; simpl.
  - now rewrite app_nil_r.
  - rewrite IH. simpl. now rewrite <- app_assoc.
Qed.

(** C1.  The code breaks the bound [end <= fileDuration] that the claim
    states.  For one file of 1 s whose smoothed energy peaks at 0.8 s,
    with [minLen = 0], [maxLen = 1] and [maxClips = 8], the only peak is
    index 8; [mapGlobalTimeToFileRange] cuts its window [0.8, 1.8] at the
    end of the file to [0.8, 1] (line 140), and the floor of
    [dedupeClips] (line 131), which runs afterwards and has no access to
    the durations, moves the end to 1.3.  The clip that [analyzeVideos]
    returns ends after its file, and the stop test of [draw],
    [video.currentTime >= end], fails at the last position of the file. *)
Theorem analyzeVideos_clip_past_file_end :
  let pfs := (decodeAll lateBurst).1 in
  let globalAudio := (decodeAll lateBurst).2 in
  let returned :=
    {| fileIndex := 0;
       clip_start := 25600 # 32000;
       clip_end := 83200 # 64000 |} in
  pfs = [ {| pf_fileIndex := 0; pf_duration := 1 |} ]
  /\ detectPeaks globalAudio (peakThreshold globalAudio) 3 = [8%nat]
  /\ clipsOfPeaks 0 1 8 pfs (videoOffsets pfs) [8%nat] []
     = [ {| fileIndex := 0; clip_start := 25600 # 32000; clip_end := 1 |} ]
  /\ an_clips (analyzeVideos lateBurst 0 1 8) = [ returned ]
  /\ clip_start returned == 8 # 10
  /\ clip_end returned == 13 # 10
  /\ ~ clipWithinFile lateBurst returned
  /\ Qle_bool (clip_end returned) 1 = false.
Proof.
  cbv zeta.
  split; [vm_compute; reflexivity|]. split; [vm_compute; reflexivity|].
  split; [vm_compute; reflexivity|]. split; [vm_compute; reflexivity|].
  split; [reflexivity|]. split; [reflexivity|]. split; [|reflexivity].
  intros (f & Hf & _ & _ & Hle & _). simpl in Hf. injection Hf as <-.
  vm_compute in Hle. apply Hle. reflexivity.
Qed.

(* ================================================================== *)
(** ** dedupeClips *)

Lemma clipCompare_cases a b :
  (fileIndex a = fileIndex b
   /\ clipCompare a b = clip_start a - clip_start b)
  \/ ((fileIndex a < fileIndex b)%nat /\ clipCompare a b < 0)
  \/ ((fileIndex b < fileIndex a)%nat /\ 0 < clipCompare a b).
Proof.
  unfold clipCompare.
  set (d := (Z.of_nat (fileIndex a) - Z.of_nat (fileIndex b))%Z).
  destruct (Qeq_bool (inject_Z d) 0) eqn:E.
  - left. split; [|reflexivity].
    apply Qeq_bool_iff in E. change 0 with (inject_Z 0) in E.
    rewrite inject_Z_injective in E. unfold d in E. lia.
  - right.
    assert (Hd : d <> 0%Z).
    { intros Hd. rewrite Hd in E. discriminate E. }
    destruct (Z.lt_trichotomy d 0) as [H|[H|H]]; [left | lia | right].
    + split; [unfold d in H; lia|].
      change 0 with (inject_Z 0). now rewrite <- Zlt_Qlt.
    + split; [unfold d in H; lia|].
      change 0 with (inject_Z 0). now rewrite <- Zlt_Qlt.
Qed.

Lemma clipCompare_le_iff a b :
  cmp_le clipCompare a b <->
  (fileIndex a < fileIndex b)%nat
  \/ (fileIndex a = fileIndex b /\ clip_start a <= clip_start b).
Proof.
  unfold cmp_le.
  destruct (clipCompare_cases a b) as [[Hf ->]|[[Hf Hc]|[Hf Hc]]].
  - split; [intros H; right; split; [exact Hf | lra]|].
    intros [H|[_ H]]; [lia | lra].
  - split; [auto | intros _; lra].
  - split; [intros H; lra | intros [H|[H _]]; lia].
Qed.

Lemma clipCompare_total a b :
  0 < clipCompare a b -> clipCompare b a <= 0.
Proof.
  intros H. apply clipCompare_le_iff.
  destruct (clipCompare_cases a b) as [[Hf Hc]|[[Hf Hc]|[Hf Hc]]].
  - right. split; [congruence|]. rewrite Hc in H. lra.
  - lra.
  - now left.
Qed.

Lemma clipCompare_trans a b c :
  cmp_le clipCompare a b -> cmp_le clipCompare b c ->
  cmp_le clipCompare a c.
Proof.
  rewrite !clipCompare_le_iff.
  intros [H1|[H1 H1']] [H2|[H2 H2']].
  - left; lia.
  - left; lia.
  - left; lia.
  - right. split; [congruence | lra].
Qed.

Lemma dedupe_step_nil gap c : dedupe_step gap [] c = [c].
Proof. reflexivity. Qed.

Lemma dedupe_step_snoc gap out l c :
  dedupe_step gap (out ++ [l]) c
  = if apart gap l c then out ++ [l; c] else out ++ [merged l c].
Proof.
  unfold dedupe_step, apart. rewrite last_snoc.
  destruct (negb (fileIndex l =? fileIndex c)%nat || _).
  - now rewrite <- app_assoc.
  - rewrite length_app. simpl.
    replace (length out + 1 - 1)%nat with (length out + 0)%nat by lia.
    now rewrite insert_app_r.
Qed.

Section SortedSnoc.
Context {A : Type} (R : A -> A -> Prop).

Lemma Sorted_snoc xs l c :
  Sorted R (xs ++ [l]) -> R l c -> Sorted R (xs ++ [l; c]).
Proof using Type.
  intros Hs Hlc. induction xs as [|x xs IH]; simpl in *.
  - repeat constructor. exact Hlc.
  - inversion Hs as [|? ? Hs' Hhd]; subst. constructor; [now apply IH|].
    destruct xs; simpl in *; inversion Hhd; subst; now constructor.
Qed.

Lemma Sorted_replace_last xs l l' :
  Sorted R (xs ++ [l]) -> (forall p, R p l -> R p l') ->
  Sorted R (xs ++ [l']).
Proof using Type.
  intros Hs Hl. induction xs as [|x xs IH]; simpl in *.
  - repeat constructor.
  - inversion Hs as [|? ? Hs' Hhd]; subst. constructor; [now apply IH|].
    destruct xs; simpl in *; inversion Hhd; subst; constructor; auto.
Qed.

Lemma Sorted_app_r xs ys : Sorted R (xs ++ ys) -> Sorted R ys.
Proof using Type.
  induction xs as [|x xs IH]; simpl; [auto|].
  intros Hs. inversion Hs; subst. auto.
Qed.

Lemma Sorted_middle xs l c ys : Sorted R (xs ++ l :: c :: ys) -> R l c.
Proof using Type.
  intros Hs. apply Sorted_app_r in Hs.
  inversion Hs as [|? ? _ Hhd]; subst. now inversion Hhd.
Qed.
End SortedSnoc.

Lemma list_snoc_cases {A} (l : list A) : l = [] \/ exists l' x, l = l' ++ [x].
Proof.
  destruct (last l) as [x|] eqn:E.
  - right. apply last_Some in E as [l' ->]. eauto.
  - left. now apply last_None in E.
Qed.

Lemma merged_longEnough l c : longEnough l -> longEnough (merged l c).
Proof.
  intros [H0 H1]. split; simpl; [exact H0|].
  destruct (Math_max_cases (clip_end l) (clip_end c)) as [[? ->]|[? ->]]; lra.
Qed.

(** The merging loop on a sorted input: the output is in order, its
    neighbours are apart, and clips that were long enough stay so. *)
Lemma dedupe_pass_inv gap rest : forall out,
  StronglySorted (cmp_le clipCompare) rest ->
  Forall longEnough rest ->
  Sorted (link gap) out ->
  Forall longEnough out ->
  (forall l, last out = Some l -> Forall (cmp_le clipCompare l) rest) ->
  Sorted (link gap) (fold_left (dedupe_step gap) rest out)
  /\ Forall longEnough (fold_left (dedupe_step gap) rest out).
Proof.
  induction rest as [|c rest IH]; intros out Hss Hlong Hout Hlo Hlast; simpl;
    [auto|].
  apply StronglySorted_inv in Hss as [Hss Hc].
  apply Forall_cons in Hlong as [Hlc Hlong].
  destruct (list_snoc_cases out) as [->|(out' & l & ->)].
  - rewrite dedupe_step_nil. apply IH; [exact Hss | exact Hlong | | |].
    + repeat constructor.
    + constructor; [exact Hlc | constructor].
    + intros l [= <-]. exact Hc.
  - rewrite dedupe_step_snoc.
    specialize (Hlast l (last_snoc _ _)).
    apply Forall_cons in Hlast as [Hl_c Hl_rest].
    destruct (apart gap l c) eqn:Hap.
    + apply IH; [exact Hss | exact Hlong | | |].
      * apply Sorted_snoc; [exact Hout | now split].
      * replace (out' ++ [l; c]) with ((out' ++ [l]) ++ [c])
          by now rewrite <- app_assoc.
        apply Forall_app. split; [exact Hlo|].
        constructor; [exact Hlc | constructor].
      * intros l0. replace (out' ++ [l; c]) with ((out' ++ [l]) ++ [c])
          by now rewrite <- app_assoc.
        rewrite last_snoc. intros [= <-]. exact Hc.
    + apply Forall_app in Hlo as [Hlo Hl]. apply Forall_cons in Hl as [Hl _].
      apply IH; [exact Hss | exact Hlong | | |].
      * eapply Sorted_replace_last; [exact Hout|]. intros p Hp. exact Hp.
      * apply Forall_app. split; [exact Hlo|].
        constructor; [now apply merged_longEnough | constructor].
      * intros l0. rewrite last_snoc. intros [= <-]. exact Hl_rest.
Qed.

(** The merging loop has nothing to do on a list whose neighbours are
    apart. *)
Lemma dedupe_pass_id gap rest : forall out,
  Sorted (link gap) (out ++ rest) ->
  fold_left (dedupe_step gap) rest out = out ++ rest.
Proof.
  induction rest as [|c rest IH]; intros out Hs; simpl;
    [now rewrite app_nil_r|].
  destruct (list_snoc_cases out) as [->|(out' & l & ->)].
  - rewrite dedupe_step_nil. now rewrite IH.
  - rewrite dedupe_step_snoc.
    rewrite <- app_assoc in Hs. simpl in Hs.
    pose proof (Sorted_middle _ _ _ _ _ Hs) as [_ Hap]. rewrite Hap.
    rewrite IH.
    + now rewrite <- !app_assoc.
    + rewrite <- app_assoc. exact Hs.
Qed.

Lemma clipFloor_id c : longEnough c -> clipFloor c = c.
Proof.
  intros [H0 H1]. destruct c as [f s e]; unfold clipFloor; simpl in *.
  destruct (Math_max_cases 0 s) as [[_ ->]|[? _]]; [|lra].
  destruct (Math_max_cases (s + (1 # 2)) e) as [[_ ->]|[? _]]; [|lra].
  reflexivity.
Qed.

Lemma map_clipFloor_id l : Forall longEnough l -> map clipFloor l = l.
Proof.
  induction 1 as [|c l Hc _ IH]; simpl; [reflexivity|].
  now rewrite clipFloor_id, IH.
Qed.

(** On clips that are long enough, [dedupeClips] returns the output of
    its merging loop, whose neighbours are apart. *)
Lemma dedupeClips_merged gap clips :
  Forall longEnough clips ->
  Sorted (link gap) (dedupeClips clips gap)
  /\ Forall longEnough (dedupeClips clips gap).
Proof.
  intros Hlong. unfold dedupeClips.
  destruct (dedupe_pass_inv gap (Array_sort clipCompare clips) []) as [Hs Hl].
  - apply Sorted_StronglySorted.
    + intros a b c. apply clipCompare_trans.
    + apply Array_sort_sorted, clipCompare_total.
  - rewrite Forall_forall in Hlong |- *. intros c Hin. apply Hlong.
    now rewrite <- (Array_sort_perm clipCompare clips).
  - constructor.
  - constructor.
  - intros l Hl. discriminate Hl.
  - rewrite map_clipFloor_id by exact Hl. auto.
Qed.

Lemma dedupeClips_fixed gap out :
  Sorted (link gap) out -> Forall longEnough out ->
  dedupeClips out gap = out.
Proof.
  intros Hs Hl. unfold dedupeClips.
  rewrite Array_sort_sorted_id.
  - rewrite dedupe_pass_id by exact Hs. simpl. now apply map_clipFloor_id.
  - eapply Sorted_weaken; [|exact Hs]. intros a b [H _]. exact H.
Qed.

(** C3, as stated, fails.  The clips [0, 0.1] and [1.2, 2] of one file
    are 1.1 s apart and are kept; the floor lengthens the first one to
    [0, 0.5], which is 0.7 s before the second, and a second application
    merges the two. *)
Lemma dedupeClips_idempotent_counterexample :
  dedupeClips shortThenFar 1
  = [ {| fileIndex := 0; clip_start := 0; clip_end := 1 # 2 |};
      {| fileIndex := 0; clip_start := 12 # 10; clip_end := 2 |} ]
  /\ dedupeClips (dedupeClips shortThenFar 1) 1
     = [ {| fileIndex := 0; clip_start := 0; clip_end := 2 |} ]
  /\ dedupeClips (dedupeClips shortThenFar 1) 1 <> dedupeClips shortThenFar 1.
Proof.
  split; [reflexivity|]. split; [reflexivity|]. discriminate.
Qed.

(** C3, amended.  On every clip list whose clips start at or after 0 and
    last at least 0.5 s, [dedupeClips] with [minGapSeconds = 1.0] is
    idempotent: applied to its own output it returns that output
    unchanged. *)
Theorem dedupeClips_idempotent (clips : list Clip) :
  Forall (fun c => 0 <= clip_start c /\ 1 # 2 <= clip_end c - clip_start c)
    clips ->
  dedupeClips (dedupeClips clips 1) 1 = dedupeClips clips 1.
Proof.
  intros Hlong.
  assert (Hl : Forall longEnough clips).
  { eapply Forall_impl; [exact Hlong|]. intros c [H0 H1]. split; lra. }
  destruct (dedupeClips_merged 1 clips Hl) as [Hs Hl'].
  now apply dedupeClips_fixed.
Qed.

Lemma dedupeClips_idempotent_witness :
  dedupeClips (dedupeClips overlapping 1) 1 = dedupeClips overlapping 1.
Proof.
  apply dedupeClips_idempotent.
  repeat constructor; simpl; lra.
Defined.

(* ================================================================== *)
(** ** The caption cursor *)

Lemma advance_loop_spec rest t : forall idx,
  let r := advance_loop rest t idx in
  (idx <= r <= idx + length rest)%nat
  /\ (forall j seg, (j < r - idx)%nat -> rest !! j = Some seg ->
        seg_end seg < t)
  /\ (forall seg, rest !! (r - idx)%nat = Some seg -> t <= seg_end seg).
Proof.
  induction rest as [|s rest IH]; intros idx; simpl.
  - split; [lia|]. split; [intros j seg Hj; lia | intros seg H; discriminate H].
  - destruct (Qlt_bool (seg_end s) t) eqn:E.
    + destruct (IH (S idx)) as (Hr & Hbefore & Hat).
      split; [lia|]. split.
      * intros j seg Hj Hseg. destruct j as [|j]; simpl in Hseg.
        -- injection Hseg as <-. now apply Qlt_bool_iff.
        -- apply (Hbefore j); [lia | exact Hseg].
      * intros seg Hseg.
        replace (advance_loop rest t (S idx) - idx)%nat
          with (S (advance_loop rest t (S idx) - S idx)) in Hseg by lia.
        now apply Hat.
    + split; [lia|]. rewrite Nat.sub_diag. split; [intros j seg Hj; lia|].
      intros seg [= <-].
      destruct (Qlt_le_dec (seg_end s) t) as [H|H]; [|exact H].
      apply Qlt_bool_iff in H. congruence.
Qed.

Lemma advance_spec segs t idx :
  (idx <= length segs)%nat ->
  let r := advance segs t idx in
  (idx <= r <= length segs)%nat
  /\ (forall j seg, (idx <= j < r)%nat -> segs !! j = Some seg ->
        seg_end seg < t)
  /\ (forall seg, segs !! r = Some seg -> t <= seg_end seg).
Proof.
  intros Hidx. unfold advance.
  destruct (advance_loop_spec (drop idx segs) t idx) as (Hr & Hbefore & Hat).
  rewrite length_drop in Hr.
  split; [lia|]. split.
  - intros j seg Hj Hseg. apply (Hbefore (j - idx)%nat); [lia|].
    rewrite lookup_drop. now replace (idx + (j - idx))%nat with j by lia.
  - intros seg Hseg. apply Hat. rewrite lookup_drop.
    now replace (idx + (advance_loop (drop idx segs) t idx - idx))%nat
      with (advance_loop (drop idx segs) t idx) by lia.
Qed.

(** The [while] loop only moves the cursor forward. *)
Lemma advance_forward segs t idx : (idx <= advance segs t idx)%nat.
Proof.
  unfold advance.
  destruct (advance_loop_spec (drop idx segs) t idx) as (Hr & _). lia.
Qed.

Lemma captionAt_Some segs t idx text :
  captionAt segs t idx = Some text ->
  exists seg, segs !! idx = Some seg /\ seg_text seg = text
    /\ seg_start seg <= t /\ t <= seg_end seg.
Proof.
  unfold captionAt. destruct (segs !! idx) as [seg|]; [|discriminate].
  destruct (Qle_bool (seg_start seg) t) eqn:E1; [|discriminate].
  destruct (Qle_bool t (seg_end seg)) eqn:E2; [|discriminate].
  simpl. intros [= <-]. exists seg.
  apply Qle_bool_iff in E1. apply Qle_bool_iff in E2. auto.
Qed.

Lemma draw_no_segments clip exportOffset currentTimes segIdx :
  draw clip (Some []) exportOffset currentTimes segIdx = []
  /\ draw clip None exportOffset currentTimes segIdx = [].
Proof.
  induction currentTimes as [|ct later [IH1 IH2]]; simpl; [auto|].
  destruct (Qle_bool (clip_end clip) ct); auto.
Qed.

(** One clip: if the export times of its lookups do not decrease, and
    the segments below the initial cursor end before all of them, every
    lookup selects its segment. *)
Lemma draw_selects clip segs exportOffset currentTimes : forall segIdx,
  (segIdx <= length segs)%nat ->
  let trace := draw clip (Some segs) exportOffset currentTimes segIdx in
  StronglySorted Qle (map lk_tExport trace) ->
  (forall lk, lk ∈ trace ->
     forall j seg, (j < segIdx)%nat -> segs !! j = Some seg ->
       seg_end seg < lk_tExport lk) ->
  Forall (selects segs) trace.
Proof.
  induction currentTimes as [|ct later IH]; intros segIdx Hidx; simpl;
    [constructor|].
  destruct (Qle_bool (clip_end clip) ct); [constructor|].
  destruct segs as [|seg0 segs'].
  { intros _ _. now rewrite (proj1 (draw_no_segments _ _ _ _)). }
  set (segs := seg0 :: segs') in *.
  set (t := exportOffset + (ct - clip_start clip)).
  destruct (advance_spec segs t segIdx Hidx) as (Hr & Hskip & Hat).
  set (r := advance segs t segIdx) in *.
  simpl. intros Hsorted Hbefore.
  apply StronglySorted_inv in Hsorted as [Hsorted Hge].
  assert (Hlow : forall j seg, (j < r)%nat -> segs !! j = Some seg ->
                   seg_end seg < t).
  { intros j seg Hj Hseg. destruct (Nat.lt_ge_cases j segIdx) as [Hlt|Hge'].
    - apply (Hbefore {| lk_tExport := t; lk_segIdx := r;
                        lk_drawn := captionAt segs t r |}
               ltac:(left) j seg Hlt Hseg).
    - apply (Hskip j); [lia | exact Hseg]. }
  constructor.
  - split; [exact Hlow|]. split; [exact (proj2 Hr)|]. split; [exact Hat|].
    simpl. apply captionAt_Some.
  - apply IH; [exact (proj2 Hr) | exact Hsorted |].
    intros lk Hlk j seg Hj Hseg.
    apply Qlt_le_trans with t; [now apply (Hlow j)|].
    rewrite Forall_forall in Hge. apply Hge.
    apply list_elem_of_In, in_map, list_elem_of_In, Hlk.
Qed.

Lemma StronglySorted_app_parts {A} (R : A -> A -> Prop) l1 l2 :
  StronglySorted R (l1 ++ l2) -> StronglySorted R l1 /\ StronglySorted R l2.
Proof.
  induction l1 as [|x l1 IH]; simpl; intros H.
  - split; [constructor | exact H].
  - apply StronglySorted_inv in H as [H Hx].
    destruct (IH H) as [H1 H2]. split; [|exact H2].
    constructor; [exact H1|]. apply Forall_app in Hx. tauto.
Qed.

Lemma renderTimeline_selects segs clips : forall exportOffset,
  StronglySorted Qle
    (map lk_tExport (renderTimeline clips (Some segs) exportOffset)) ->
  Forall (selects segs) (renderTimeline clips (Some segs) exportOffset).
Proof.
  induction clips as [|[c currentTimes] clips IH]; intros exportOffset; simpl;
    [constructor|].
  rewrite map_app. intros H.
  apply StronglySorted_app_parts in H as [H1 H2].
  apply Forall_app. split; [|now apply IH].
  unfold renderClipToCanvas in *.
  apply draw_selects; [lia | exact H1 |].
  intros lk _ j seg Hj. lia.
Qed.

(** Two lookups that select their segments: the later export time has
    the later cursor. *)
Lemma selects_monotone segs lk1 lk2 :
  selects segs lk1 -> selects segs lk2 ->
  lk_tExport lk1 <= lk_tExport lk2 ->
  (lk_segIdx lk1 <= lk_segIdx lk2)%nat.
Proof.
  intros (Hlow1 & Hlen1 & _) (_ & _ & Hat2 & _) Ht.
  destruct (Nat.le_gt_cases (lk_segIdx lk1) (lk_segIdx lk2)) as [H|H];
    [exact H|].
  destruct (lookup_lt_is_Some_2 segs (lk_segIdx lk2)) as [seg Hseg]; [lia|].
  pose proof (Hlow1 _ _ H Hseg). pose proof (Hat2 _ Hseg). lra.
Qed.

Lemma cursor_sorted segs trace :
  Forall (selects segs) trace ->
  StronglySorted Qle (map lk_tExport trace) ->
  StronglySorted le (map lk_segIdx trace).
Proof.
  induction 1 as [|lk trace Hlk Htrace IH]; simpl; intros Hs; [constructor|].
  apply StronglySorted_inv in Hs as [Hs Hge].
  constructor; [now apply IH|].
  rewrite Forall_forall in Hge. rewrite Forall_forall in Htrace.
  apply Forall_forall. intros i Hi. apply list_elem_of_In, in_map_iff in Hi as (lk' & <- & Hin).
  apply (selects_monotone segs); [exact Hlk | |].
  - apply Htrace, list_elem_of_In, Hin.
  - apply Hge, list_elem_of_In, in_map, Hin.
Qed.

(** From a cursor below which every segment ends before [t], the
    [while] loop stops where it stops from 0. *)
Lemma advance_from_zero segs t s :
  (s <= length segs)%nat ->
  (forall j seg, (j < s)%nat -> segs !! j = Some seg -> seg_end seg < t) ->
  advance segs t s = advance segs t 0.
Proof.
  intros Hs Hlow.
  destruct (advance_spec segs t s Hs) as (Hr & Hskip & Hat).
  destruct (advance_spec segs t 0 ltac:(lia)) as (Hr0 & Hskip0 & Hat0).
  set (r := advance segs t s) in *. set (r0 := advance segs t 0) in *.
  assert (Hbelow : forall j seg, (j < r)%nat -> segs !! j = Some seg ->
                     seg_end seg < t).
  { intros j seg Hj Hseg. destruct (Nat.lt_ge_cases j s) as [Hlt|Hge].
    - now apply (Hlow j).
    - apply (Hskip j); [lia | exact Hseg]. }
  destruct (Nat.lt_trichotomy r r0) as [Hlt|[Heq|Hgt]]; [|exact Heq|].
  - destruct (lookup_lt_is_Some_2 segs r) as [seg Hseg]; [lia|].
    pose proof (Hat _ Hseg). pose proof (Hskip0 r seg ltac:(lia) Hseg). lra.
  - destruct (lookup_lt_is_Some_2 segs r0) as [seg Hseg]; [lia|].
    pose proof (Hat0 _ Hseg). pose proof (Hbelow r0 seg Hgt Hseg). lra.
Qed.

Lemma draw_from_zero clip segs exportOffset currentTimes s :
  (s <= length segs)%nat ->
  (forall lk, lk ∈ draw clip (Some segs) exportOffset currentTimes 0 ->
     forall j seg, (j < s)%nat -> segs !! j = Some seg ->
       seg_end seg < lk_tExport lk) ->
  draw clip (Some segs) exportOffset currentTimes s
  = draw clip (Some segs) exportOffset currentTimes 0.
Proof.
  intros Hs. destruct currentTimes as [|ct later]; simpl; [reflexivity|].
  destruct (Qle_bool (clip_end clip) ct); [reflexivity|].
  destruct segs as [|seg0 segs'].
  { intros _. now rewrite !(proj1 (draw_no_segments _ _ _ _)). }
  set (segs := seg0 :: segs') in *.
  set (t := exportOffset + (ct - clip_start clip)).
  intros Hlow.
  assert (Heq : advance segs t s = advance segs t 0).
  { apply advance_from_zero; [exact Hs|]. intros j seg Hj Hseg.
    apply (Hlow {| lk_tExport := t; lk_segIdx := advance segs t 0;
                   lk_drawn := captionAt segs t (advance segs t 0) |}
             ltac:(left) j seg Hj Hseg). }
  now rewrite Heq.
Qed.

Lemma cursorAfter_le clip segs exportOffset currentTimes : forall s,
  (s <= length segs)%nat ->
  (cursorAfter clip (Some segs) exportOffset currentTimes s <= length segs)%nat.
Proof.
  induction currentTimes as [|ct later IH]; intros s Hs; simpl; [exact Hs|].
  destruct (Qle_bool (clip_end clip) ct); [exact Hs|].
  destruct segs as [|seg0 segs']; [now apply IH|].
  apply IH. now apply advance_spec.
Qed.

(** Every segment below the cursor that a clip leaves behind ends before
    [bound], if this holds below the cursor the clip started with and no
    lookup of the clip is later than [bound]. *)
Lemma cursorAfter_below clip segs exportOffset bound currentTimes :
  forall s,
  (s <= length segs)%nat ->
  (forall lk, lk ∈ draw clip (Some segs) exportOffset currentTimes s ->
     lk_tExport lk <= bound) ->
  (forall j seg, (j < s)%nat -> segs !! j = Some seg -> seg_end seg < bound) ->
  forall j seg,
    (j < cursorAfter clip (Some segs) exportOffset currentTimes s)%nat ->
    segs !! j = Some seg -> seg_end seg < bound.
Proof.
  induction currentTimes as [|ct later IH]; intros s Hs; simpl; [auto|].
  destruct (Qle_bool (clip_end clip) ct); [auto|].
  destruct segs as [|seg0 segs'].
  { intros _ Hlow. apply IH; [exact Hs | | exact Hlow].
    rewrite (proj1 (draw_no_segments _ _ _ _)). intros lk Hlk. inversion Hlk. }
  set (segs := seg0 :: segs') in *.
  set (t := exportOffset + (ct - clip_start clip)).
  intros Hle Hlow.
  destruct (advance_spec segs t s Hs) as (Hr & Hskip & _).
  apply IH; [exact (proj2 Hr) | |].
  - intros lk Hlk. apply Hle. now right.
  - intros j seg Hj Hseg. destruct (Nat.lt_ge_cases j s) as [Hlt|Hge].
    + now apply (Hlow j).
    + apply Qlt_le_trans with t; [apply (Hskip j); [lia | exact Hseg]|].
      apply (Hle {| lk_tExport := t; lk_segIdx := advance segs t s;
                    lk_drawn := captionAt segs t (advance segs t s) |}).
      left.
Qed.

Lemma StronglySorted_app_cross {A} (R : A -> A -> Prop) l1 l2 x y :
  StronglySorted R (l1 ++ l2) -> x ∈ l1 -> y ∈ l2 -> R x y.
Proof.
  induction l1 as [|z l1 IH]; simpl; intros H Hx Hy; [inversion Hx|].
  apply StronglySorted_inv in H as [H Hz].
  apply elem_of_cons in Hx as [->|Hx]; [|now apply IH].
  rewrite Forall_forall in Hz. apply Hz, elem_of_app. now right.
Qed.

(** With export times that do not decrease, the cursor that each clip
    creates at 0 gives the lookups of one cursor kept for the whole run. *)
Lemma renderTimeline_oneCursor_eq segs clips : forall exportOffset s,
  (s <= length segs)%nat ->
  StronglySorted Qle
    (map lk_tExport (renderTimeline clips (Some segs) exportOffset)) ->
  (forall lk, lk ∈ renderTimeline clips (Some segs) exportOffset ->
     forall j seg, (j < s)%nat -> segs !! j = Some seg ->
       seg_end seg < lk_tExport lk) ->
  renderTimeline_oneCursor clips (Some segs) exportOffset s
  = renderTimeline clips (Some segs) exportOffset.
Proof.
  induction clips as [|[c currentTimes] clips IH]; intros exportOffset s Hs;
    simpl; [reflexivity|].
  unfold renderClipToCanvas. intros Hsorted Hlow.
  assert (Hd : draw c (Some segs) exportOffset currentTimes s
               = draw c (Some segs) exportOffset currentTimes 0).
  { apply draw_from_zero; [exact Hs|].
    intros lk Hlk. apply Hlow, elem_of_app. now left. }
  rewrite Hd. f_equal.
  rewrite map_app in Hsorted.
  apply IH.
  - now apply cursorAfter_le.
  - now apply StronglySorted_app_parts in Hsorted.
  - intros lk Hlk. apply cursorAfter_below; [exact Hs | |].
    + rewrite Hd. intros lk0 Hlk0.
      apply (StronglySorted_app_cross _ _ _ _ _ Hsorted);
        apply list_elem_of_In, in_map, list_elem_of_In; assumption.
    + apply Hlow, elem_of_app. now right.
Qed.

Lemma renderTimeline_no_segments clips : forall exportOffset,
  renderTimeline clips None exportOffset = [].
Proof.
  induction clips as [|[c currentTimes] clips IH]; intros exportOffset; simpl;
    [reflexivity|].
  unfold renderClipToCanvas.
  now rewrite (proj2 (draw_no_segments _ _ _ _)), IH.
Qed.

Lemma renderTimeline_oneCursor_no_segments clips : forall exportOffset s,
  renderTimeline_oneCursor clips None exportOffset s = [].
Proof.
  induction clips as [|[c currentTimes] clips IH]; intros exportOffset s; simpl;
    [reflexivity|].
  now rewrite (proj2 (draw_no_segments _ _ _ _)), IH.
Qed.

(** C2.  During one run of [exportCompilation] over the whole clip
    sequence, if the export times of the successive caption lookups do
    not decrease, then the cursor indices used by these lookups do not
    decrease either, and the lookups are those of one cursor that is kept
    for the whole run and never set back.  ([renderClipToCanvas] creates
    its cursor at 0 for each clip; the [while] loop, which only moves the
    cursor forward, brings it at the first lookup of the clip to where
    the cursor of the clip before would stand.)  At each lookup every
    segment before the cursor ends before the export time, the segment at
    the cursor does not, and a caption is drawn only from the segment at
    the cursor and only when [start <= exportTime <= end]. *)
Theorem caption_cursor_monotone (clips : list (Clip * list Q))
    (transcription : option AsrResult) (wantAsr : bool)
    (transcribePCM : option AsrResult) :
  Sorted Qle
    (map lk_tExport
       (exportCompilation clips transcription wantAsr transcribePCM)) ->
  Sorted le
    (map lk_segIdx
       (exportCompilation clips transcription wantAsr transcribePCM))
  /\ exportCompilation clips transcription wantAsr transcribePCM
     = renderTimeline_oneCursor clips
         (captionSegmentsOf transcription wantAsr transcribePCM) 0 0
  /\ (forall segs t idx, (idx <= advance segs t idx)%nat)
  /\ (forall lk,
        In lk (exportCompilation clips transcription wantAsr transcribePCM) ->
        exists segs,
          captionSegmentsOf transcription wantAsr transcribePCM = Some segs
          /\ selects segs lk).
Proof.
  unfold exportCompilation.
  destruct (captionSegmentsOf transcription wantAsr transcribePCM)
    as [segs|].
  - intros Hs. apply Sorted_StronglySorted in Hs;
      [|intros a b c; apply Qle_trans].
    pose proof (renderTimeline_selects segs clips 0 Hs) as Hsel.
    split; [|split; [|split]].
    + apply StronglySorted_Sorted. now apply (cursor_sorted segs).
    + symmetry. apply renderTimeline_oneCursor_eq; [lia | exact Hs|].
      intros lk _ j seg Hj. lia.
    + apply advance_forward.
    + intros lk Hin. exists segs. split; [reflexivity|].
      rewrite Forall_forall in Hsel. apply Hsel, list_elem_of_In, Hin.
  - rewrite renderTimeline_no_segments, renderTimeline_oneCursor_no_segments.
    intros _.
    split; [constructor|]. split; [reflexivity|].
    split; [apply advance_forward|].
    intros lk [].
Qed.

Lemma caption_cursor_monotone_witness :
  map lk_segIdx (exportCompilation twoClips (Some twoCaptions) false None)
  = [0; 0; 1; 1]%nat
  /\ Sorted le
       (map lk_segIdx
          (exportCompilation twoClips (Some twoCaptions) false None)).
Proof.
  split; [reflexivity|].
  apply (caption_cursor_monotone twoClips (Some twoCaptions) false None).
  vm_compute. repeat constructor; discriminate.
Defined.

(* ================================================================== *)
(** ** detectPeaks: what is returned and what is not missed *)

Lemma detectPeaks_sound_inv arr threshold d :
  soundInv arr threshold (1 + (length arr - 2))
    (fold_left (detectPeaks_step arr threshold d)
       (seq 1 (length arr - 2)) ([], NegInfinity)).
Proof.
  apply (fold_left_seq_inv (detectPeaks_step arr threshold d)
           (soundInv arr threshold)).
  - intros x Hx. inversion Hx.
  - intros i [peaks lastIdx] _ Hinv. unfold detectPeaks_step.
    destruct (isPeak arr threshold i) eqn:Hp; [|exact Hinv].
    destruct (farEnough i lastIdx d); [|exact Hinv].
    intros x Hx. simpl in Hx. apply elem_of_app in Hx as [Hx|Hx].
    + now apply Hinv.
    + apply list_elem_of_singleton in Hx as ->. exact Hp.
Qed.

Lemma isPeak_values arr threshold i :
  (1 <= i)%nat -> (i + 2 <= length arr)%nat ->
  exists a b c,
    arr !! (i - 1)%nat = Some a /\ arr !! i = Some b
    /\ arr !! (i + 1)%nat = Some c
    /\ (isPeak arr threshold i = true <-> threshold < b /\ a < b /\ c <= b).
Proof.
  intros H1 H2.
  destruct (lookup_lt_is_Some_2 arr (i - 1)) as [a Ha]; [lia|].
  destruct (lookup_lt_is_Some_2 arr i) as [b Hb]; [lia|].
  destruct (lookup_lt_is_Some_2 arr (i + 1)) as [c Hc]; [lia|].
  exists a, b, c. repeat (split; [assumption|]).
  unfold isPeak, at_. rewrite Ha, Hb, Hc. simpl.
  rewrite !andb_true_iff, !Qlt_bool_iff, Qle_bool_iff. tauto.
Qed.

(** Two neighbouring indices cannot both pass the test. *)
Lemma isPeak_not_adjacent arr threshold i :
  isPeak arr threshold i = true -> isPeak arr threshold (S i) = true -> False.
Proof.
  unfold isPeak. rewrite !andb_true_iff, !Qlt_bool_iff, !Qle_bool_iff.
  intros [_ H1] [[_ H2] _].
  replace (i + 1)%nat with (S i) in H1 by lia.
  replace (S i - 1)%nat with i in H2 by lia. lra.
Qed.

Lemma detectPeaks_complete_inv arr threshold d :
  d <= 2 ->
  completeInv arr threshold (1 + (length arr - 2))
    (fold_left (detectPeaks_step arr threshold d)
       (seq 1 (length arr - 2)) ([], NegInfinity)).
Proof.
  intros Hd.
  apply (fold_left_seq_inv (detectPeaks_step arr threshold d)
           (completeInv arr threshold)).
  - split; [intros x Hx; lia | intros l Hl; discriminate Hl].
  - intros i [peaks lastIdx] Hi [Hall Hlast]. simpl in *.
    unfold detectPeaks_step.
    destruct (isPeak arr threshold i) eqn:Hp.
    + assert (Hfar : farEnough i lastIdx d = true).
      { destruct lastIdx as [|l]; [reflexivity|]. simpl.
        destruct (Hlast l eq_refl) as [Hl Hpl].
        assert (S l <> i).
        { intros <-. exact (isPeak_not_adjacent _ _ _ Hpl Hp). }
        apply Qle_bool_iff. apply Qle_trans with 2; [exact Hd|].
        unfold indexDiff. change 2 with (inject_Z 2).
        rewrite <- Zle_Qle. lia. }
      rewrite Hfar. split; simpl.
      * intros x Hx Hpx. apply elem_of_app.
        destruct (decide (x = i)) as [->|Hne].
        -- right. left.
        -- left. apply Hall; [lia | exact Hpx].
      * intros l [= <-]. split; [lia | exact Hp].
    + split; simpl.
      * intros x Hx Hpx. destruct (decide (x = i)) as [->|Hne];
          [congruence|]. apply Hall; [lia | exact Hpx].
      * intros l Hl. destruct (Hlast l Hl). split; [lia | assumption].
Qed.

Lemma first_or_none arr threshold i :
  (forall y, (1 <= y < i)%nat -> isPeak arr threshold y = false)
  \/ exists x, (x < i)%nat /\ firstPeak arr threshold x.
Proof.
  induction i as [|i [Hno|(x & Hx & Hfx)]].
  - left. intros y Hy. lia.
  - destruct (isPeak arr threshold i) eqn:Hp.
    + destruct (decide (i = 0%nat)) as [->|Hne].
      * left. intros y Hy. lia.
      * right. exists i. split; [lia|]. split; [lia|]. split; [exact Hp|].
        exact Hno.
    + left. intros y Hy. destruct (decide (y = i)) as [->|Hne];
        [exact Hp | apply Hno; lia].
  - right. exists x. split; [lia | exact Hfx].
Qed.

Lemma detectPeaks_first_inv arr threshold d :
  firstInv arr threshold (1 + (length arr - 2))
    (fold_left (detectPeaks_step arr threshold d)
       (seq 1 (length arr - 2)) ([], NegInfinity)).
Proof.
  apply (fold_left_seq_inv (detectPeaks_step arr threshold d)
           (firstInv arr threshold)).
  - split; [reflexivity|]. intros x Hx [H1 _]. lia.
  - intros i [peaks lastIdx] Hi [Hnone Hfirst]. simpl in *.
    unfold detectPeaks_step.
    destruct (isPeak arr threshold i) eqn:Hp.
    + destruct (first_or_none arr threshold i) as [Hno|(x & Hx & Hfx)].
      * (* [i] is the first one *)
        specialize (Hnone Hno). injection Hnone as -> ->. simpl.
        split; [intros H; rewrite (H i) in Hp; [discriminate | lia]|].
        intros x Hx (H1 & Hpx & Hbefore). simpl.
        destruct (decide (x = i)) as [->|Hne]; [reflexivity|].
        rewrite (Hno x) in Hpx; [discriminate | lia].
      * (* an earlier one heads the result *)
        pose proof (Hfirst x Hx Hfx) as Hhead.
        assert (Hkeep : forall peaks', head peaks = Some x ->
                  head (peaks ++ peaks') = Some x).
        { intros peaks'. destruct peaks; simpl; [discriminate | auto]. }
        split.
        -- intros H. destruct Hfx as (H1 & Hpx & _).
           rewrite (H x) in Hpx; [discriminate | lia].
        -- intros y Hy Hfy.
           assert (y = x) as ->.
           { destruct Hfx as (Hx1 & Hpx & Hbx), Hfy as (Hy1 & Hpy & Hby).
             destruct (Nat.lt_trichotomy x y) as [H|[H|H]]; [|auto|].
             - rewrite (Hby x) in Hpx; [discriminate | lia].
             - rewrite (Hbx y) in Hpy; [discriminate | lia]. }
           destruct (farEnough i lastIdx d); simpl; auto.
    + split.
      * intros H. apply Hnone. intros y Hy. apply H. lia.
      * intros x Hx Hfx. destruct (decide (x = i)) as [->|Hne].
        -- destruct Hfx as (_ & Hpx & _). congruence.
        -- apply Hfirst; [lia | exact Hfx].
Qed.

(** X1.  Every index that [detectPeaks] returns passes the test of the
    loop: its sample is above the threshold, above its left neighbour and
    not below its right neighbour. *)
Theorem detectPeaks_returns_peaks (arr : list Q) (threshold d : Q) (i : nat) :
  In i (detectPeaks arr threshold d) ->
  exists a b c,
    arr !! (i - 1)%nat = Some a /\ arr !! i = Some b
    /\ arr !! (i + 1)%nat = Some c
    /\ threshold < b /\ a < b /\ c <= b.
Proof.
  intros Hi. apply list_elem_of_In in Hi.
  destruct (detectPeaks_inv arr threshold d) as [Hin _].
  destruct (Hin i Hi) as ([H1 _] & H2 & _).
  destruct (isPeak_values arr threshold i H1 H2)
    as (a & b & c & Ha & Hb & Hc & Hiff).
  exists a, b, c. repeat (split; [assumption|]).
  apply Hiff. exact (detectPeaks_sound_inv arr threshold d i Hi).
Qed.

Lemma detectPeaks_returns_peaks_witness :
  exists a b c,
    [0; 1; 5; 1; 0; 1; 6; 1; 0] !! (6 - 1)%nat = Some a
    /\ [0; 1; 5; 1; 0; 1; 6; 1; 0] !! 6%nat = Some b
    /\ [0; 1; 5; 1; 0; 1; 6; 1; 0] !! (6 + 1)%nat = Some c
    /\ 2 < b /\ a < b /\ c <= b.
Proof.
  apply (detectPeaks_returns_peaks [0; 1; 5; 1; 0; 1; 6; 1; 0] 2 2 6).
  right. left. reflexivity.
Defined.

(** X2.  With a minimum distance of at most 2, [detectPeaks] misses
    nothing: every inner index whose sample is above the threshold, above
    its left neighbour and not below its right neighbour is returned (two
    such indices are never neighbours, so the distance test always
    passes). *)
Theorem detectPeaks_complete (arr : list Q) (threshold d : Q) (i : nat)
    (a b c : Q) :
  d <= 2 ->
  (1 <= i)%nat ->
  arr !! (i - 1)%nat = Some a -> arr !! i = Some b ->
  arr !! (i + 1)%nat = Some c ->
  threshold < b -> a < b -> c <= b ->
  In i (detectPeaks arr threshold d).
Proof.
  intros Hd H1 Ha Hb Hc Ht Hab Hcb.
  assert (H2 : (i + 2 <= length arr)%nat).
  { apply lookup_lt_Some in Hc. lia. }
  destruct (isPeak_values arr threshold i H1 H2)
    as (a' & b' & c' & Ha' & Hb' & Hc' & Hiff).
  rewrite Ha in Ha'. rewrite Hb in Hb'. rewrite Hc in Hc'.
  injection Ha' as <-. injection Hb' as <-. injection Hc' as <-.
  apply list_elem_of_In.
  destruct (detectPeaks_complete_inv arr threshold d Hd) as [Hall _].
  apply Hall; [lia|]. apply Hiff. auto.
Qed.

Lemma detectPeaks_complete_witness :
  In 6%nat (detectPeaks [0; 1; 5; 1; 0; 1; 6; 1; 0] 2 2).
Proof.
  apply (detectPeaks_complete [0; 1; 5; 1; 0; 1; 6; 1; 0] 2 2 6 1 6 1);
    try reflexivity; try lra; lia.
Defined.

(** X3.  Whatever the minimum distance, the first inner index that passes
    the test is the first index that [detectPeaks] returns. *)
Theorem detectPeaks_first_peak (arr : list Q) (threshold d : Q) (i : nat) :
  (1 <= i)%nat -> (i + 2 <= length arr)%nat ->
  isPeak arr threshold i = true ->
  (forall y, (1 <= y < i)%nat -> isPeak arr threshold y = false) ->
  head (detectPeaks arr threshold d) = Some i.
Proof.
  intros H1 H2 Hp Hbefore.
  destruct (detectPeaks_first_inv arr threshold d) as [_ Hfirst].
  apply Hfirst; [lia|]. split; [exact H1|]. split; [exact Hp | exact Hbefore].
Qed.

Lemma detectPeaks_first_peak_witness :
  head (detectPeaks [0; 1; 5; 1; 0; 1; 6; 1; 0] 2 10) = Some 2%nat.
Proof.
  apply (detectPeaks_first_peak [0; 1; 5; 1; 0; 1; 6; 1; 0] 2 10 2).
  - lia.
  - simpl. lia.
  - reflexivity.
  - intros y Hy. assert (y = 1%nat) as -> by lia. reflexivity.
Defined.

(* ================================================================== *)
(** ** movingAverage: the running sum, in exact arithmetic *)

(** With exact sums the running sum is the sum of the current window.
    (On doubles [sum += arr[i]] and [sum -= arr[i - k]] round, so this
    is used below only where every sum is exact: for a silent curve.) *)

Lemma fold_Qplus_sum l : forall a, fold_left Qplus l a == a + sumOf l.
Proof.
  unfold sumOf. induction l as [|x l IH]; intros a; simpl; [ring|].
  rewrite (IH (a + x)), (IH (0 + x)). ring.
Qed.

Lemma sumOf_cons x l : sumOf (x :: l) == x + sumOf l.
Proof. unfold sumOf at 1. simpl. rewrite fold_Qplus_sum. ring. Qed.

Lemma sumOf_snoc l x : sumOf (l ++ [x]) = sumOf l + x.
Proof. unfold sumOf. now rewrite fold_left_app. Qed.

Lemma movingAverage_step_window arr k i st :
  (i < length arr)%nat ->
  windowInv arr k i st ->
  windowInv arr k (S i) (movingAverage_step arr k st i).
Proof.
  intros Hi (Hsum & Hlen & Hout). destruct st as [sum out]; simpl in *.
  destruct (lookup_lt_is_Some_2 arr i Hi) as [x Hx].
  assert (Hnew : (if (k <=? i)%nat then sum + at_ arr i - at_ arr (i - k)
                  else sum + at_ arr i)
                 == sumOf (window arr k i)).
  { unfold window, at_. rewrite Hx. simpl.
    destruct (Nat.leb_spec k i) as [Hk|Hk].
    - destruct (lookup_lt_is_Some_2 arr (i - k)) as [y Hy]; [lia|].
      rewrite Hy. simpl. rewrite Hsum.
      replace (Nat.min i k) with k by lia.
      replace (Nat.min (i + 1) k) with k by lia.
      destruct k as [|k'].
      + simpl. rewrite Nat.sub_0_r in Hy. rewrite Hx in Hy.
        injection Hy as <-. unfold sumOf. simpl. ring.
      + rewrite (drop_S _ _ _ Hy).
        replace (S (i - S k')) with (i + 1 - S k')%nat by lia.
        change (take (S k') (y :: ?l)) with (y :: take k' l).
        assert (Hlast : drop (i + 1 - S k') arr !! k' = Some x).
        { rewrite lookup_drop. now replace (i + 1 - S k' + k')%nat with i by lia. }
        rewrite (take_S_r _ _ _ Hlast), sumOf_snoc, sumOf_cons. ring.
    - rewrite Hsum.
      replace (Nat.min i k) with i by lia.
      replace (Nat.min (i + 1) k) with (S i) by lia.
      replace (i - k)%nat with 0%nat by lia.
      replace (i + 1 - k)%nat with 0%nat by lia.
      rewrite !drop_0, (sumOf_take_S _ _ _ Hx). reflexivity. }
  unfold movingAverage_step, windowInv. cbv zeta. cbn [fst snd].
  split.
  - rewrite Hnew. unfold window.
    replace (S i - k)%nat with (i + 1 - k)%nat by lia.
    now replace (Nat.min (S i) k) with (Nat.min (i + 1) k) by lia.
  - split; [now rewrite length_insert|].
    intros j Hj. destruct (decide (j = i)) as [->|Hne].
    + eexists. split; [apply list_lookup_insert_eq; lia|].
      now rewrite Hnew.
    + rewrite list_lookup_insert_ne by congruence. apply Hout. lia.
Qed.

Lemma movingAverage_window_inv arr k :
  windowInv arr k (0 + length arr)
    (fold_left (movingAverage_step arr k) (seq 0 (length arr))
       (0, replicate (length arr) 0)).
Proof.
  apply (fold_left_seq_inv (movingAverage_step arr k) (windowInv arr k)).
  - split; [reflexivity|]. split; [apply length_replicate|].
    intros j Hj. lia.
  - intros i st Hi. apply movingAverage_step_window. lia.
Qed.

Lemma window_length arr k i :
  (i < length arr)%nat -> length (window arr k i) = Nat.min (i + 1) k.
Proof.
  intros Hi. unfold window. rewrite length_take, length_drop. lia.
Qed.

Lemma movingAverage_entry arr k i :
  (1 <= k)%nat -> (i < length arr)%nat ->
  exists v, movingAverage arr k !! i = Some v /\ v == mean (window arr k i).
Proof.
  intros Hk Hi.
  destruct (movingAverage_window_inv arr k) as (_ & _ & Hout).
  destruct (Hout i ltac:(lia)) as (v & Hv & Heq).
  exists v. split; [exact Hv|].
  rewrite Heq. unfold mean, len. now rewrite window_length.
Qed.

Lemma sumOf_bounds lo hi l :
  Forall (fun x => lo <= x <= hi) l ->
  len l * lo <= sumOf l <= len l * hi.
Proof.
  induction 1 as [|x l [Hlo Hhi] _ [IHlo IHhi]].
  - unfold len, sumOf. cbn [length fold_left].
    change (inject_Z (Z.of_nat 0)) with 0. lra.
  - rewrite sumOf_cons. unfold len in *. cbn [length].
    rewrite Nat2Z.inj_succ, <- Z.add_1_r, inject_Z_plus.
    change (inject_Z 1) with 1. lra.
Qed.

Lemma mean_bounds lo hi l :
  l <> [] -> Forall (fun x => lo <= x <= hi) l -> lo <= mean l <= hi.
Proof.
  intros Hne Hall. destruct (sumOf_bounds lo hi l Hall) as [Hlo Hhi].
  assert (Hpos : 0 < len l).
  { unfold len. change 0 with (inject_Z 0). rewrite <- Zlt_Qlt.
    destruct l; simpl; [congruence | lia]. }
  unfold mean. split.
  - apply Qle_shift_div_l; [exact Hpos|]. lra.
  - apply Qle_shift_div_r; [exact Hpos|]. lra.
Qed.

Lemma movingAverage_within c k lo hi :
  (1 <= k)%nat ->
  Forall (fun x => lo <= x <= hi) c ->
  Forall (fun v => lo <= v <= hi) (movingAverage c k).
Proof.
  intros Hk Hall. apply Forall_lookup. intros i v Hv.
  assert (Hi : (i < length c)%nat).
  { apply lookup_lt_Some in Hv.
    destruct (movingAverage_window_inv c k) as (_ & Hlen & _).
    unfold movingAverage in Hv. simpl in Hlen. lia. }
  destruct (movingAverage_entry c k i Hk Hi) as (v' & Hv' & Heq).
  rewrite Hv in Hv'. injection Hv' as <-. rewrite Heq.
  apply mean_bounds.
  - intros E. pose proof (window_length c k i Hi) as Hl.
    rewrite E in Hl. simpl in Hl. lia.
  - unfold window. now apply Forall_take, Forall_drop.
Qed.

(* ================================================================== *)
(** ** dedupeClips: order, coverage and provenance of the output *)

(** Induction over the merging loop on a sorted input: [P out done]
    relates the output so far to the clips consumed so far. *)
Lemma dedupe_pass_ind gap (P : list Clip -> list Clip -> Prop) :
  P [] [] ->
  (forall c, P [c] [c]) ->
  (forall out l c done,
     P (out ++ [l]) done -> cmp_le clipCompare l c ->
     apart gap l c = true -> P (out ++ [l; c]) (done ++ [c])) ->
  (forall out l c done,
     P (out ++ [l]) done -> cmp_le clipCompare l c ->
     apart gap l c = false -> P (out ++ [merged l c]) (done ++ [c])) ->
  forall clips,
    StronglySorted (cmp_le clipCompare) clips ->
    P (fold_left (dedupe_step gap) clips []) clips.
Proof.
  intros Hnil Hone Hpush Hmerge.
  assert (Hgen : forall rest out done,
            StronglySorted (cmp_le clipCompare) rest ->
            (forall l, last out = Some l ->
               Forall (cmp_le clipCompare l) rest) ->
            (out = [] -> done = []) ->
            P out done ->
            P (fold_left (dedupe_step gap) rest out) (done ++ rest)).
  { induction rest as [|c rest IH]; intros out done Hss Hlast Hempty HP; simpl.
    - now rewrite app_nil_r.
    - apply StronglySorted_inv in Hss as [Hss Hc].
      replace (done ++ c :: rest) with ((done ++ [c]) ++ rest)
        by now rewrite <- app_assoc.
      destruct (list_snoc_cases out) as [->|(out' & l & ->)].
      + rewrite dedupe_step_nil, (Hempty eq_refl). apply IH.
        * exact Hss.
        * intros l [= <-]. exact Hc.
        * discriminate.
        * apply Hone.
      + rewrite dedupe_step_snoc.
        specialize (Hlast l (last_snoc _ _)).
        apply Forall_cons in Hlast as [Hl_c Hl_rest].
        destruct (apart gap l c) eqn:Hap; apply IH; try exact Hss.
        * intros l0. replace (out' ++ [l; c]) with ((out' ++ [l]) ++ [c])
            by now rewrite <- app_assoc.
          rewrite last_snoc. intros [= <-]. exact Hc.
        * intros E. now apply app_eq_nil in E as [_ E].
        * now apply Hpush.
        * intros l0. rewrite last_snoc. intros [= <-]. exact Hl_rest.
        * intros E. now apply app_eq_nil in E as [_ E].
        * now apply Hmerge. }
  intros clips Hss. apply (Hgen clips [] []); auto.
  intros l Hl. discriminate Hl.
Qed.

Lemma Array_sort_clips_sorted clips :
  StronglySorted (cmp_le clipCompare) (Array_sort clipCompare clips).
Proof.
  apply Sorted_StronglySorted.
  - intros a b c. apply clipCompare_trans.
  - apply Array_sort_sorted, clipCompare_total.
Qed.

Lemma apart_false_same_file gap l c :
  apart gap l c = false -> fileIndex l = fileIndex c.
Proof.
  unfold apart. intros H. apply orb_false_iff in H as [H _].
  now apply negb_false_iff, Nat.eqb_eq in H.
Qed.

(** The merging loop keeps its output in order, with neighbours apart. *)
Lemma dedupe_pass_linked gap clips :
  Sorted (link gap)
    (fold_left (dedupe_step gap) (Array_sort clipCompare clips) []).
Proof.
  apply (dedupe_pass_ind gap (fun out _ => Sorted (link gap) out));
    [constructor | repeat constructor | | | apply Array_sort_clips_sorted].
  - intros out l c _ Hs Hle Hap. apply Sorted_snoc; [exact Hs | now split].
  - intros out l c _ Hs _ _.
    eapply Sorted_replace_last; [exact Hs|]. intros p Hp. exact Hp.
Qed.

Lemma covers_weaken out out' c :
  (forall o, o ∈ out -> exists o', o' ∈ out' /\ fileIndex o' = fileIndex o
      /\ clip_start o' <= clip_start o /\ clip_end o <= clip_end o') ->
  covers out c -> covers out' c.
Proof.
  intros Hext (o & Ho & Hf & Hs & He).
  destruct (Hext o Ho) as (o' & Ho' & Hf' & Hs' & He').
  exists o'. split; [exact Ho'|]. split; [congruence|]. split; lra.
Qed.

(** Every clip consumed by the merging loop is covered by its output. *)
Lemma dedupe_pass_covers gap clips :
  Forall (covers (fold_left (dedupe_step gap)
                    (Array_sort clipCompare clips) []))
    (Array_sort clipCompare clips).
Proof.
  apply (dedupe_pass_ind gap (fun out done => Forall (covers out) done));
    [constructor | | | | apply Array_sort_clips_sorted].
  - intros c. constructor; [|constructor].
    exists c. split; [left|]. split; [reflexivity|]. split; lra.
  - intros out l c done Hcov _ _. apply Forall_app. split.
    + eapply Forall_impl; [exact Hcov|]. intros c0. apply covers_weaken.
      intros o Ho. exists o. split.
      * apply elem_of_app in Ho as [Ho|Ho]; apply elem_of_app;
          [now left | right].
        apply list_elem_of_singleton in Ho as ->. left.
      * split; [reflexivity|]. split; lra.
    + constructor; [|constructor]. exists c. split.
      * apply elem_of_app. right. right. left.
      * split; [reflexivity|]. split; lra.
  - intros out l c done Hcov Hle Hap.
    pose proof (apart_false_same_file _ _ _ Hap) as Hfile.
    assert (Hmax : clip_end l <= clip_end (merged l c)
                   /\ clip_end c <= clip_end (merged l c)).
    { simpl. destruct (Math_max_cases (clip_end l) (clip_end c))
        as [[? ->]|[? ->]]; split; lra. }
    apply Forall_app. split.
    + eapply Forall_impl; [exact Hcov|]. intros c0. apply covers_weaken.
      intros o Ho. apply elem_of_app in Ho as [Ho|Ho].
      * exists o. split; [apply elem_of_app; now left|].
        split; [reflexivity|]. split; lra.
      * apply list_elem_of_singleton in Ho as ->.
        exists (merged l c). split; [apply elem_of_app; right; left|].
        split; [reflexivity|]. split; [simpl; lra | tauto].
    + constructor; [|constructor]. exists (merged l c).
      split; [apply elem_of_app; right; left|].
      split; [exact Hfile|]. split; [|tauto].
      apply clipCompare_le_iff in Hle as [Hlt|[_ Hs]]; [lia | exact Hs].
Qed.

Lemma madeFrom_more done done' o :
  (forall c, c ∈ done -> c ∈ done') -> madeFrom done o -> madeFrom done' o.
Proof.
  intros Hsub (c & c' & Hc & Hc' & H). exists c, c'. auto.
Qed.

(** Every clip the merging loop puts out is made from consumed clips,
    and there are no more of them. *)
Lemma dedupe_pass_madeFrom gap clips :
  Forall (madeFrom (Array_sort clipCompare clips))
    (fold_left (dedupe_step gap) (Array_sort clipCompare clips) [])
  /\ (length (fold_left (dedupe_step gap) (Array_sort clipCompare clips) [])
      <= length (Array_sort clipCompare clips))%nat.
Proof.
  apply (dedupe_pass_ind gap
           (fun out done => Forall (madeFrom done) out
                            /\ (length out <= length done)%nat));
    [split; [constructor | simpl; lia] | | | |
     apply Array_sort_clips_sorted].
  - intros c. split; [|simpl; lia]. constructor; [|constructor].
    exists c, c. repeat split; left.
  - intros out l c done [Hmade Hlen] _ _. split.
    + replace (out ++ [l; c]) with ((out ++ [l]) ++ [c])
        by now rewrite <- app_assoc.
      apply Forall_app. split.
      * eapply Forall_impl; [exact Hmade|]. intros o. apply madeFrom_more.
        intros c0 Hc0. apply elem_of_app. now left.
      * constructor; [|constructor]. exists c, c.
        repeat split; apply elem_of_app; right; left.
    + rewrite !length_app in *. simpl in *. lia.
  - intros out l c done [Hmade Hlen] _ Hap.
    pose proof (apart_false_same_file _ _ _ Hap) as Hfile. split.
    + apply Forall_app in Hmade as [Hmade Hl].
      apply Forall_cons in Hl as [(c1 & c2 & H1 & H2 & Hf1 & Hs1 & Hf2 & He2) _].
      apply Forall_app. split.
      * eapply Forall_impl; [exact Hmade|]. intros o. apply madeFrom_more.
        intros c0 Hc0. apply elem_of_app. now left.
      * constructor; [|constructor]. simpl.
        destruct (Math_max_cases (clip_end l) (clip_end c))
          as [[_ Hm]|[_ Hm]].
        -- exists c1, c. unfold merged. rewrite Hm. simpl.
           split; [apply elem_of_app; now left|].
           split; [apply elem_of_app; right; left|]. auto.
        -- exists c1, c2. unfold merged. rewrite Hm. simpl.
           split; [apply elem_of_app; now left|].
           split; [apply elem_of_app; now left|]. auto.
    + rewrite !length_app in *. simpl in *. lia.
Qed.

Lemma Sorted_map {A B} (R : A -> A -> Prop) (R' : B -> B -> Prop)
    (f : A -> B) l :
  (forall a b, R a b -> R' (f a) (f b)) -> Sorted R l -> Sorted R' (map f l).
Proof.
  intros HR. induction 1 as [|x l Hs IH Hhd]; simpl; constructor; [exact IH|].
  destruct Hhd; simpl; constructor; auto.
Qed.

Lemma Sorted_neighbours {A} (R : A -> A -> Prop) l i a b :
  Sorted R l -> l !! i = Some a -> l !! S i = Some b -> R a b.
Proof.
  intros Hs. revert i. induction Hs as [|x l Hs IH Hhd]; intros i Ha Hb;
    [discriminate|].
  destruct i as [|i]; simpl in *.
  - injection Ha as <-. destruct Hhd as [|y l' Hxy]; [discriminate|].
    simpl in Hb. now injection Hb as <-.
  - eapply IH; eauto.
Qed.

Lemma Math_max_mono a b c : a <= b -> Math_max c a <= Math_max c b.
Proof.
  intros H. destruct (Math_max_cases c a) as [[? ->]|[? ->]];
    destruct (Math_max_cases c b) as [[? ->]|[? ->]]; lra.
Qed.

Lemma dedupeClips_length clips gap :
  (length (dedupeClips clips gap) <= length clips)%nat.
Proof.
  unfold dedupeClips. rewrite length_map.
  destruct (dedupe_pass_madeFrom gap clips) as [_ Hlen].
  rewrite (Permutation_length (Array_sort_perm clipCompare clips)) in Hlen.
  exact Hlen.
Qed.

(** X6.  For every clip list and gap, the list that [dedupeClips]
    returns is ordered by file and then by start, is not longer than the
    input, and has no clip that starts before 0. *)
Theorem dedupeClips_sorted (clips : list Clip) (gap : Q) :
  Sorted fileThenStart (dedupeClips clips gap)
  /\ (length (dedupeClips clips gap) <= length clips)%nat
  /\ Forall (fun o => 0 <= clip_start o) (dedupeClips clips gap).
Proof.
  split; [|split; [apply dedupeClips_length|]]; unfold dedupeClips.
  - apply (Sorted_map (link gap)); [|apply dedupe_pass_linked].
    intros a b [Hle _]. apply clipCompare_le_iff in Hle.
    destruct Hle as [Hlt|[Hf Hs]]; [now left|].
    right. split; [exact Hf|]. simpl. now apply Math_max_mono.
  - apply Forall_forall. intros o Ho.
    apply list_elem_of_In, in_map_iff in Ho as (o0 & <- & _). simpl.
    destruct (Math_max_cases 0 (clip_start o0)) as [[? ->]|[? ->]]; lra.
Qed.

(** X7.  Nothing of the input is lost: for every clip [c] of the input,
    [dedupeClips] returns a clip of the same file that ends no earlier
    than [c] and starts no later than [max(0, c.start)]. *)
Theorem dedupeClips_covers_input (clips : list Clip) (gap : Q) (c : Clip) :
  In c clips ->
  exists o, In o (dedupeClips clips gap)
    /\ fileIndex o = fileIndex c
    /\ clip_start o <= Math_max 0 (clip_start c)
    /\ clip_end c <= clip_end o.
Proof.
  intros Hc.
  assert (Hc' : c ∈ Array_sort clipCompare clips).
  { rewrite (Array_sort_perm clipCompare clips). now apply list_elem_of_In. }
  pose proof (dedupe_pass_covers gap clips) as Hcov.
  rewrite Forall_forall in Hcov.
  destruct (Hcov c Hc') as (o & Ho & Hf & Hs & He).
  exists (clipFloor o). split.
  - unfold dedupeClips. apply in_map. now apply list_elem_of_In.
  - split; [exact Hf|]. simpl. split.
    + now apply Math_max_mono.
    + destruct (Math_max_cases (clip_start o + (1 # 2)) (clip_end o))
        as [[? ->]|[? ->]]; lra.
Qed.

Lemma dedupeClips_covers_input_witness :
  exists o, In o (dedupeClips overlapping 1)
    /\ fileIndex o = 0%nat
    /\ clip_start o <= Math_max 0 2
    /\ 4 <= clip_end o.
Proof.
  apply (dedupeClips_covers_input overlapping 1
           {| fileIndex := 0; clip_start := 2; clip_end := 4 |}).
  right. left. reflexivity.
Defined.

(** X8.  On clips that start at or after 0 and last at least 0.5 s, two
    neighbours of the output that are in the same file are at least the
    gap apart: the second starts at least [gap] after the first ends. *)
Theorem dedupeClips_neighbours_apart (clips : list Clip) (gap : Q)
    (i : nat) (a b : Clip) :
  Forall (fun c => 0 <= clip_start c /\ 1 # 2 <= clip_end c - clip_start c)
    clips ->
  dedupeClips clips gap !! i = Some a ->
  dedupeClips clips gap !! S i = Some b ->
  fileIndex a = fileIndex b ->
  gap <= clip_start b - clip_end a.
Proof.
  intros Hlong Ha Hb Hfile.
  assert (Hl : Forall longEnough clips).
  { eapply Forall_impl; [exact Hlong|]. intros c [H0 H1]. split; lra. }
  destruct (dedupeClips_merged gap clips Hl) as [Hs _].
  destruct (Sorted_neighbours _ _ _ _ _ Hs Ha Hb) as [_ Hap].
  unfold apart in Hap. apply orb_true_iff in Hap as [Hne|Hgap].
  - apply negb_true_iff, Nat.eqb_neq in Hne. contradiction.
  - now apply Qle_bool_iff.
Qed.

Lemma dedupeClips_neighbours_apart_witness :
  1 <= 6 - 4.
Proof.
  apply (dedupeClips_neighbours_apart overlapping 1 0
           {| fileIndex := 0; clip_start := 1; clip_end := 4 |}
           {| fileIndex := 0; clip_start := 6; clip_end := 7 |}).
  - repeat constructor; simpl; lra.
  - reflexivity.
  - reflexivity.
  - reflexivity.
Defined.

(** X9.  [dedupeClips] invents nothing: every clip it returns has the
    file and the start (clamped at 0) of an input clip, and its end is
    the end of an input clip of that file or, by the floor, that start
    plus 0.5. *)
Theorem dedupeClips_made_from_input (clips : list Clip) (gap : Q) (o : Clip) :
  In o (dedupeClips clips gap) ->
  exists c c', In c clips /\ In c' clips
    /\ fileIndex o = fileIndex c /\ fileIndex o = fileIndex c'
    /\ clip_start o = Math_max 0 (clip_start c)
    /\ (clip_end o = clip_end c'
        \/ clip_end o = clip_start c + (1 # 2)).
Proof.
  unfold dedupeClips. intros Ho.
  apply in_map_iff in Ho as (o0 & <- & Ho0).
  destruct (dedupe_pass_madeFrom gap clips) as [Hmade _].
  rewrite Forall_forall in Hmade.
  destruct (Hmade o0 (proj2 (list_elem_of_In _ _) Ho0))
    as (c & c' & Hc & Hc' & Hf & Hs & Hf' & He).
  exists c, c'.
  rewrite (Array_sort_perm clipCompare clips) in Hc, Hc'.
  split; [now apply list_elem_of_In|]. split; [now apply list_elem_of_In|].
  simpl. split; [exact Hf|]. split; [exact Hf'|]. split; [now rewrite Hs|].
  rewrite <- Hs, <- He.
  destruct (Math_max_cases (clip_start o0 + (1 # 2)) (clip_end o0))
    as [[_ ->]|[_ ->]]; auto.
Qed.

Lemma dedupeClips_made_from_input_witness :
  exists c c', In c overlapping /\ In c' overlapping
    /\ 0%nat = fileIndex c /\ 0%nat = fileIndex c'
    /\ 1 = Math_max 0 (clip_start c)
    /\ (4 = clip_end c' \/ 4 = clip_start c + (1 # 2)).
Proof.
  apply (dedupeClips_made_from_input overlapping 1
           {| fileIndex := 0; clip_start := 1; clip_end := 4 |}).
  left. reflexivity.
Defined.

(* ================================================================== *)
(** ** videoOffsets and mapGlobalTimeToFileRange: the global timeline *)

Lemma offsetsFrom_length offset pfs :
  length (offsetsFrom offset pfs) = length pfs.
Proof.
  revert offset. induction pfs as [|r pfs IH]; intros offset; simpl;
    [reflexivity | now rewrite IH].
Qed.

Lemma offsetsFrom_lookup pfs : forall offset i,
  (i < length pfs)%nat ->
  offsetsFrom offset pfs !! i = Some (totalFrom offset (take i pfs)).
Proof.
  induction pfs as [|r pfs IH]; intros offset i Hi; simpl in Hi; [lia|].
  destruct i as [|i]; simpl; [reflexivity|].
  rewrite IH by lia. reflexivity.
Qed.

Lemma totalFrom_cons offset r pfs :
  totalFrom offset (r :: pfs) = totalFrom (offset + pf_duration r) pfs.
Proof. reflexivity. Qed.

Lemma totalFrom_ge pfs : forall offset,
  nonNegative pfs -> offset <= totalFrom offset pfs.
Proof.
  induction pfs as [|r pfs IH]; intros offset Hnn.
  - unfold totalFrom. simpl. lra.
  - apply Forall_cons in Hnn as [Hr Hnn]. cbv beta in Hr.
    rewrite totalFrom_cons. specialize (IH (offset + pf_duration r) Hnn). lra.
Qed.

Lemma offsetsFrom_end_le_total pfs : forall offset i off res,
  nonNegative pfs ->
  offsetsFrom offset pfs !! i = Some off -> pfs !! i = Some res ->
  off + pf_duration res <= totalFrom offset pfs.
Proof.
  induction pfs as [|r pfs IH]; intros offset i off res Hnn Hoff Hres;
    [discriminate|].
  apply Forall_cons in Hnn as [Hr Hnn].
  rewrite totalFrom_cons. destruct i as [|i]; simpl in *.
  - injection Hoff as <-. injection Hres as <-. now apply totalFrom_ge.
  - now apply (IH (offset + pf_duration r) i).
Qed.

(** A time on the global timeline lies in the range of some file. *)
Lemma offsetsFrom_some_range pfs : forall offset start,
  nonNegative pfs ->
  offset <= start -> start < totalFrom offset pfs ->
  exists i off res,
    offsetsFrom offset pfs !! i = Some off /\ pfs !! i = Some res
    /\ off <= start /\ start < off + pf_duration res.
Proof.
  induction pfs as [|r pfs IH]; intros offset start Hnn Hlo Hhi.
  - unfold totalFrom in Hhi. simpl in Hhi. lra.
  - apply Forall_cons in Hnn as [Hr Hnn]. rewrite totalFrom_cons in Hhi.
    destruct (Qlt_le_dec start (offset + pf_duration r)) as [Hin|Hout].
    + exists 0%nat, offset, r. simpl. auto.
    + destruct (IH (offset + pf_duration r) start Hnn Hout Hhi)
        as (i & off & res & Hoff & Hres & H1 & H2).
      exists (S i), off, res. simpl. auto.
Qed.

(** With the offsets of [analyzeVideos] and durations that are not
    negative, the first file whose range holds [start] is the only one. *)
Lemma mapGlobalTime_hit pfs start end_ i off res :
  nonNegative pfs ->
  videoOffsets pfs !! i = Some off -> pfs !! i = Some res ->
  off <= start -> start < off + pf_duration res ->
  mapGlobalTimeToFileRange start end_ pfs (videoOffsets pfs)
  = Some {| fileIndex := i;
            clip_start := start - off;
            clip_end := Math_min (end_ - off) (pf_duration res) |}.
Proof.
  intros Hnn Hoff Hres Hle Hlt. unfold mapGlobalTimeToFileRange.
  apply (mapGlobalTime_loop_first _ _ _ _ _ _ i).
  - apply lookup_lt_Some in Hres. lia.
  - intros j Hj.
    destruct (fileRangeAt start end_ pfs (videoOffsets pfs) j)
      as [clip|] eqn:E; [|reflexivity].
    apply fileRangeAt_Some in E as (off_j & res_j & Hoj & Hrj & _ & Hlt_j & _).
    rewrite videoOffsets_from in Hoj, Hoff.
    pose proof (offsetsFrom_before _ _ j i _ _ _ Hnn (proj2 Hj) Hoj Hrj Hoff).
    lra.
  - now apply fileRangeAt_hit.
Qed.

(** X10.  [videoOffsets] gives one offset per file: the first is 0 and
    the offset of file [i] is the sum of the durations of the files
    before it. *)
Theorem videoOffsets_are_prefix_sums (perFileResults : list PerFileResult) :
  length (videoOffsets perFileResults) = length perFileResults
  /\ forall i, (i < length perFileResults)%nat ->
       videoOffsets perFileResults !! i
       = Some (fold_left Qplus (map pf_duration (take i perFileResults)) 0).
Proof.
  rewrite videoOffsets_from. split; [apply offsetsFrom_length|].
  intros i Hi. now rewrite offsetsFrom_lookup.
Qed.

Lemma videoOffsets_are_prefix_sums_witness :
  videoOffsets twoFiles !! 1%nat = Some (0 + 10).
Proof.
  apply (proj2 (videoOffsets_are_prefix_sums twoFiles) 1%nat).
  simpl. lia.
Defined.

(** X11.  With the offsets of [analyzeVideos] and durations that are not
    negative, [mapGlobalTimeToFileRange] returns [null] exactly when the
    start of the window is before 0 or at or after the total duration of
    the files. *)
Theorem mapGlobalTime_null_iff_outside (perFileResults : list PerFileResult)
    (start end_ : Q) :
  nonNegative perFileResults ->
  mapGlobalTimeToFileRange start end_ perFileResults
    (videoOffsets perFileResults) = None
  <-> start < 0
      \/ fold_left Qplus (map pf_duration perFileResults) 0 <= start.
Proof.
  intros Hnn. change (fold_left Qplus (map pf_duration perFileResults) 0)
    with (totalFrom 0 perFileResults).
  split.
  - intros Hnone.
    destruct (Qlt_le_dec start 0) as [Hneg|Hpos]; [now left|].
    destruct (Qlt_le_dec start (totalFrom 0 perFileResults)) as [Hin|Hout];
      [|now right].
    destruct (offsetsFrom_some_range _ _ _ Hnn Hpos Hin)
      as (i & off & res & Hoff & Hres & H1 & H2).
    rewrite <- videoOffsets_from in Hoff.
    rewrite (mapGlobalTime_hit _ _ end_ _ _ _ Hnn Hoff Hres H1 H2) in Hnone.
    discriminate Hnone.
  - intros Hout.
    destruct (mapGlobalTimeToFileRange start end_ perFileResults
                (videoOffsets perFileResults)) as [clip|] eqn:E;
      [|reflexivity].
    apply mapGlobalTime_loop_Some in E as [i E].
    apply fileRangeAt_Some in E as (off & res & Hoff & Hres & H1 & H2 & _).
    rewrite videoOffsets_from in Hoff.
    pose proof (offsetsFrom_ge _ _ _ _ Hnn Hoff).
    pose proof (offsetsFrom_end_le_total _ _ _ _ _ Hnn Hoff Hres).
    destruct Hout; lra.
Qed.

Lemma mapGlobalTime_null_iff_outside_witness :
  mapGlobalTimeToFileRange 25 30 twoFiles (videoOffsets twoFiles) = None.
Proof.
  apply (mapGlobalTime_null_iff_outside twoFiles 25 30).
  - repeat constructor; simpl; lra.
  - right. simpl. lra.
Defined.

Lemma mapGlobalTime_loop_seq_Some start end_ pfs offsets n a clip :
  mapGlobalTime_loop start end_ pfs offsets (seq a n) = Some clip ->
  exists i, (a <= i < a + n)%nat
    /\ fileRangeAt start end_ pfs offsets i = Some clip
    /\ forall j, (a <= j < i)%nat ->
         fileRangeAt start end_ pfs offsets j = None.
Proof.
  revert a. induction n as [|n IH]; intros a; simpl; [discriminate|].
  destruct (fileRangeAt start end_ pfs offsets a) as [c|] eqn:E.
  - intros [= <-]. exists a. split; [lia|]. split; [exact E|].
    intros j Hj. lia.
  - intros H. destruct (IH _ H) as (i & Hi & Hhit & Hbefore).
    exists i. split; [lia|]. split; [exact Hhit|].
    intros j Hj. destruct (decide (j = a)) as [->|Hne]; [exact E|].
    apply Hbefore. lia.
Qed.

(** X12.  Whatever the offsets, a clip that [mapGlobalTimeToFileRange]
    returns is the one built for the first file whose range test
    [start >= off && start < off + dur] succeeds: its local start is
    [start - off] and is not negative, its local end is
    [Math.min(end - off, dur)] and so not after the end of the file, and
    the test fails for every earlier file. *)
Theorem mapGlobalTime_first_file (perFileResults : list PerFileResult)
    (offsets : list Q) (start end_ : Q) (clip : Clip) :
  mapGlobalTimeToFileRange start end_ perFileResults offsets = Some clip ->
  exists off res,
    offsets !! fileIndex clip = Some off
    /\ perFileResults !! fileIndex clip = Some res
    /\ off <= start /\ start < off + pf_duration res
    /\ clip_start clip = start - off
    /\ clip_end clip = Math_min (end_ - off) (pf_duration res)
    /\ 0 <= clip_start clip
    /\ clip_end clip <= pf_duration res
    /\ forall j, (j < fileIndex clip)%nat ->
         fileRangeAt start end_ perFileResults offsets j = None.
Proof.
  intros H. unfold mapGlobalTimeToFileRange in H.
  apply mapGlobalTime_loop_seq_Some in H as (i & _ & Hhit & Hbefore).
  apply fileRangeAt_Some in Hhit as (off & res & Hoff & Hres & Hle & Hlt & ->).
  exists off, res. cbn [fileIndex clip_start clip_end].
  split; [exact Hoff|]. split; [exact Hres|]. split; [exact Hle|].
  split; [exact Hlt|]. split; [reflexivity|]. split; [reflexivity|].
  split; [lra|]. split.
  - destruct (Math_min_cases (end_ - off) (pf_duration res))
      as [[? ->]|[? ->]]; lra.
  - intros j Hj. apply Hbefore. lia.
Qed.

Lemma mapGlobalTime_first_file_witness :
  exists off res,
    videoOffsets twoFiles !! 1%nat = Some off
    /\ twoFiles !! 1%nat = Some res
    /\ off <= 12 /\ 12 < off + pf_duration res
    /\ 2 = 12 - off
    /\ 15 = Math_min (30 - off) (pf_duration res)
    /\ 0 <= 2
    /\ 15 <= pf_duration res
    /\ forall j, (j < 1)%nat ->
         fileRangeAt 12 30 twoFiles (videoOffsets twoFiles) j = None.
Proof.
  apply (mapGlobalTime_first_file twoFiles (videoOffsets twoFiles) 12 30
           {| fileIndex := 1; clip_start := 2; clip_end := 15 |}).
  vm_compute. reflexivity.
Defined.

(* ================================================================== *)
(** ** analyzeVideos: the global curve, the threshold and the clip count *)

Lemma decode_fold_audio l st :
  snd (fold_left decode_step l st)
  = snd st ++ concat (map (fun file => smoothOf file.2) l).
Proof.
  revert st. induction l as [|[i f] l IH]; intros [pfs g]; simpl.
  - now rewrite app_nil_r.
  - rewrite IH. simpl. now rewrite <- app_assoc.
Qed.

Lemma decodeAll_audio videoFiles :
  (decodeAll videoFiles).2 = concat (map smoothOf videoFiles).
Proof.
  unfold decodeAll. rewrite decode_fold_audio. simpl. f_equal.
  change (map (fun file : nat * DecodedFile => smoothOf file.2)
            (imap (fun i f => (i, f)) videoFiles))
    with ((fun file : nat * DecodedFile => smoothOf file.2)
            <$> imap (fun i f => (i, f)) videoFiles).
  rewrite fmap_imap.
  change (imap (fun n => (fun file : nat * DecodedFile => smoothOf file.2)
                         ∘ (fun f => (n, f))) videoFiles)
    with (imap (const smoothOf) videoFiles).
  now rewrite imap_const.
Qed.

Lemma analyzeVideos_audio videoFiles minLen maxLen maxClips :
  an_audioPCM (analyzeVideos videoFiles minLen maxLen maxClips)
  = concat (map smoothOf videoFiles).
Proof.
  unfold analyzeVideos.
  pose proof (decodeAll_audio videoFiles) as H.
  destruct (decodeAll videoFiles) as [pfs g]. exact H.
Qed.

(** X13.  The curve that [analyzeVideos] returns as [audioPCM] has one
    sample per RMS window of every file: its length is the sum of the
    lengths of the RMS curves, since smoothing keeps the length of each
    curve and the curves are concatenated in file order.  (The
    conversion [new Float32Array(globalAudio)] rounds the samples and
    keeps their number.) *)
Theorem analyzeVideos_curve_length (videoFiles : list DecodedFile)
    (minLen maxLen maxClips : Q) :
  length (an_audioPCM (analyzeVideos videoFiles minLen maxLen maxClips))
  = list_sum (map (fun f => length (df_rms f)) videoFiles).
Proof.
  rewrite analyzeVideos_audio.
  rewrite length_concat, map_map. f_equal.
  apply map_ext. intros f. unfold smoothOf.
  now destruct (movingAverage_inv (df_rms f) 5) as [Hlen _].
Qed.

Lemma inject_Z_pred a : inject_Z (a - 1) == inject_Z a - 1.
Proof.
  unfold Z.sub. rewrite inject_Z_plus, inject_Z_opp. reflexivity.
Qed.

Lemma clipsOfPeaks_length minLen maxLen maxClips pfs offsets peaks :
  forall clips,
    (length (clipsOfPeaks minLen maxLen maxClips pfs offsets peaks clips)
     <= length clips + 1)%nat
    \/ len (clipsOfPeaks minLen maxLen maxClips pfs offsets peaks clips) - 1
       < maxClips.
Proof.
  induction peaks as [|p peaks IH]; intros clips; simpl; [left; lia|].
  set (start := clamp_inf _ 0). set (end_ := clamp_inf _ 0).
  set (clips' := match mapGlobalTimeToFileRange start end_ pfs offsets with
                 | Some clip => clips ++ [clip]
                 | None => clips
                 end).
  assert (Hlen : (length clips' <= length clips + 1)%nat).
  { subst clips'. destruct (mapGlobalTimeToFileRange _ _ _ _);
      [rewrite length_app; simpl|]; lia. }
  destruct (Qle_bool maxClips (len clips')) eqn:E; [now left|].
  assert (Hlt : len clips' < maxClips).
  { destruct (Qlt_le_dec (len clips') maxClips) as [H|H]; [exact H|].
    apply Qle_bool_iff in H. congruence. }
  right. destruct (IH clips') as [H|H]; [|exact H].
  eapply Qle_lt_trans; [|exact Hlt]. unfold len in *.
  assert (Hz : (Z.of_nat (length (clipsOfPeaks minLen maxLen maxClips pfs
                                    offsets peaks clips')) - 1
                <= Z.of_nat (length clips'))%Z) by lia.
  rewrite Zle_Qle, inject_Z_pred in Hz. exact Hz.
Qed.

Lemma analyzeVideos_count videoFiles minLen maxLen maxClips :
  (length (an_clips (analyzeVideos videoFiles minLen maxLen maxClips))
   <= 1)%nat
  \/ len (an_clips (analyzeVideos videoFiles minLen maxLen maxClips)) - 1
     < maxClips.
Proof.
  unfold analyzeVideos. destruct (decodeAll videoFiles) as [pfs g]. simpl.
  set (cands := clipsOfPeaks _ _ _ _ _ _ []).
  pose proof (dedupeClips_length cands 1) as Hd.
  destruct (clipsOfPeaks_length minLen maxLen maxClips pfs (videoOffsets pfs)
              (detectPeaks g (peakThreshold g) 3) []) as [H|H];
    fold cands in H.
  - left. simpl in H. lia.
  - right. eapply Qle_lt_trans; [|exact H]. unfold len.
    assert (Hz : (Z.of_nat (length (dedupeClips cands 1)) - 1
                  <= Z.of_nat (length cands) - 1)%Z) by lia.
    rewrite Zle_Qle, !inject_Z_pred in Hz. exact Hz.
Qed.

(** X14.  [analyzeVideos] returns at most [n] clips for every natural
    number [n >= 1] that is at least [maxClips] (so at most [maxClips]
    clips for an integer [maxClips >= 1], and at most one clip when
    [maxClips] is smaller): the loop over the peaks stops as soon as
    [maxClips] candidates are collected, and merging adds none. *)
Theorem analyzeVideos_at_most_maxClips (videoFiles : list DecodedFile)
    (minLen maxLen maxClips : Q) (n : nat) :
  (1 <= n)%nat -> maxClips <= inject_Z (Z.of_nat n) ->
  (length (an_clips (analyzeVideos videoFiles minLen maxLen maxClips))
   <= n)%nat.
Proof.
  intros Hn Hmax.
  destruct (analyzeVideos_count videoFiles minLen maxLen maxClips) as [H|H];
    [lia|].
  unfold len in H.
  assert (Hq : inject_Z (Z.of_nat (length (an_clips
                 (analyzeVideos videoFiles minLen maxLen maxClips))) - 1)
               < inject_Z (Z.of_nat n)).
  { rewrite inject_Z_pred. eapply Qlt_le_trans; eauto. }
  rewrite <- Zlt_Qlt in Hq. lia.
Qed.

Lemma analyzeVideos_at_most_maxClips_witness :
  (length (an_clips (analyzeVideos lateBurst 0 1 8)) <= 8)%nat.
Proof.
  apply (analyzeVideos_at_most_maxClips lateBurst 0 1 8 8); [lia|].
  vm_compute. discriminate.
Defined.

Lemma peakThreshold_pos globalAudio :
  Forall (fun x => 0 <= x) globalAudio -> 0 < peakThreshold globalAudio.
Proof.
  intros Hnn. unfold peakThreshold.
  set (sorted := Array_sort numCompare globalAudio).
  destruct (sorted !! q80_index sorted) as [v|] eqn:Hv; [|reflexivity].
  destruct (Qeq_bool v 0) eqn:E; [reflexivity|].
  assert (Hin : v ∈ globalAudio).
  { rewrite <- (Array_sort_perm numCompare globalAudio).
    eapply list_elem_of_lookup_2; eauto. }
  rewrite Forall_forall in Hnn. specialize (Hnn v Hin).
  destruct (Qlt_le_dec 0 v) as [H|H]; [exact H|].
  assert (Hz : v == 0) by lra.
  apply Qeq_bool_iff in Hz. congruence.
Qed.

(** X15.  For a curve without negative samples, as an RMS curve is, the
    threshold that [analyzeVideos] passes to [detectPeaks] is positive. *)
Theorem peakThreshold_positive (globalAudio : list Q) :
  Forall (fun x => 0 <= x) globalAudio -> 0 < peakThreshold globalAudio.
Proof. apply peakThreshold_pos. Qed.

Lemma peakThreshold_positive_witness : 0 < peakThreshold [0; 0; 3; 0; 0].
Proof.
  apply (peakThreshold_positive [0; 0; 3; 0; 0]).
  repeat constructor; lra.
Defined.

Lemma detectPeaks_none arr threshold d :
  (forall i, isPeak arr threshold i = false) ->
  detectPeaks arr threshold d = [].
Proof.
  intros Hno. destruct (detectPeaks arr threshold d) as [|x peaks] eqn:E;
    [reflexivity|].
  pose proof (detectPeaks_sound_inv arr threshold d x) as Hx.
  unfold detectPeaks in E. simpl in Hx. rewrite E in Hx.
  rewrite Hno in Hx. discriminate Hx. left.
Qed.

Lemma silent_smooth f : silent f -> Forall (fun v => 0 <= v <= 0) (smoothOf f).
Proof.
  intros Hs. apply movingAverage_within; [lia|].
  eapply Forall_impl; [exact Hs|]. intros x Hx. simpl in Hx. lra.
Qed.

(** X16.  Silence gives no highlights: when every RMS sample of every
    file is 0, [analyzeVideos] returns no clip, whatever the durations
    and the parameters. *)
Theorem analyzeVideos_silence (videoFiles : list DecodedFile)
    (minLen maxLen maxClips : Q) :
  Forall (fun f => Forall (fun x => x == 0) (df_rms f)) videoFiles ->
  an_clips (analyzeVideos videoFiles minLen maxLen maxClips) = [].
Proof.
  intros Hsilent.
  assert (Hzero : Forall (fun v => 0 <= v <= 0)
                    (decodeAll videoFiles).2).
  { rewrite decodeAll_audio. apply Forall_concat, Forall_forall.
    intros c Hc. apply list_elem_of_In, in_map_iff in Hc as (f & <- & Hf).
    apply silent_smooth. rewrite Forall_forall in Hsilent.
    apply Hsilent, list_elem_of_In, Hf. }
  unfold analyzeVideos. destruct (decodeAll videoFiles) as [pfs g].
  simpl in *. rewrite detectPeaks_none; [reflexivity|].
  intros i. unfold isPeak.
  assert (Hth : 0 < peakThreshold g).
  { apply peakThreshold_pos. eapply Forall_impl; [exact Hzero|].
    intros v Hv. simpl in Hv. tauto. }
  assert (Hat : at_ g i <= 0).
  { unfold at_. destruct (g !! i) as [v|] eqn:Hv; simpl; [|lra].
    rewrite Forall_forall in Hzero.
    apply (Hzero v). eapply list_elem_of_lookup_2; eauto. }
  destruct (Qlt_bool (peakThreshold g) (at_ g i)) eqn:E; [|reflexivity].
  apply Qlt_bool_iff in E. lra.
Qed.

Lemma analyzeVideos_silence_witness :
  an_clips
    (analyzeVideos
       [ {| df_rms := [0; 0; 0; 0; 0; 0]; df_duration := 3 # 5 |} ] 6 20 8)
  = [].
Proof.
  apply analyzeVideos_silence.
  repeat constructor.
Defined.

(* ================================================================== *)
(** ** The export clock *)

Lemma offsetAfter_cons exportOffset c clips :
  offsetAfter exportOffset (c :: clips)
  = offsetAfter (exportOffset + (clip_end c - clip_start c)) clips.
Proof. reflexivity. Qed.

Lemma offsetAfter_ge clips : forall exportOffset,
  Forall (fun c => clip_start c <= clip_end c) clips ->
  exportOffset <= offsetAfter exportOffset clips.
Proof.
  induction clips as [|c clips IH]; intros exportOffset Hall.
  - unfold offsetAfter. simpl. lra.
  - apply Forall_cons in Hall as [Hc Hall]. cbv beta in Hc.
    rewrite offsetAfter_cons.
    specialize (IH (exportOffset + (clip_end c - clip_start c)) Hall). lra.
Qed.

(** The lookups of one clip are at or after the export time of every
    lower bound of the positions read. *)
Lemma draw_times_lower clip caps exportOffset lo currentTimes : forall s,
  Forall (fun ct => lo <= ct) currentTimes ->
  Forall (fun lk => exportOffset + (lo - clip_start clip) <= lk_tExport lk)
    (draw clip caps exportOffset currentTimes s).
Proof.
  induction currentTimes as [|ct later IH]; intros s Hlo; simpl;
    [constructor|].
  apply Forall_cons in Hlo as [Hct Hlo].
  destruct (Qle_bool (clip_end clip) ct); [constructor|].
  destruct caps as [[|seg0 segs']|]; try now apply IH.
  constructor; [simpl; lra | now apply IH].
Qed.

Lemma draw_times_upper clip caps exportOffset currentTimes : forall s,
  Forall (fun lk => lk_tExport lk
                    < exportOffset + (clip_end clip - clip_start clip))
    (draw clip caps exportOffset currentTimes s).
Proof.
  induction currentTimes as [|ct later IH]; intros s; simpl; [constructor|].
  destruct (Qle_bool (clip_end clip) ct) eqn:E; [constructor|].
  assert (Hlt : ct < clip_end clip).
  { destruct (Qlt_le_dec ct (clip_end clip)) as [H|H]; [exact H|].
    apply Qle_bool_iff in H. congruence. }
  destruct caps as [[|seg0 segs']|]; try now apply IH.
  constructor; [simpl; lra | now apply IH].
Qed.

Lemma draw_times_sorted clip caps exportOffset currentTimes : forall s,
  StronglySorted Qle currentTimes ->
  StronglySorted Qle
    (map lk_tExport (draw clip caps exportOffset currentTimes s)).
Proof.
  induction currentTimes as [|ct later IH]; intros s Hs; simpl;
    [constructor|].
  apply StronglySorted_inv in Hs as [Hs Hct].
  destruct (Qle_bool (clip_end clip) ct); [constructor|].
  destruct caps as [[|seg0 segs']|]; try now apply IH.
  simpl. constructor; [now apply IH|].
  apply Forall_forall. intros t Ht.
  apply list_elem_of_In, in_map_iff in Ht as (lk & <- & Hlk).
  pose proof (draw_times_lower clip (Some (seg0 :: segs')) exportOffset ct
                later (advance (seg0 :: segs')
                         (exportOffset + (ct - clip_start clip)) s) Hct) as Hl.
  rewrite Forall_forall in Hl. apply Hl, list_elem_of_In, Hlk.
Qed.

Lemma StronglySorted_app_intro {A} (R : A -> A -> Prop) l1 l2 :
  StronglySorted R l1 -> StronglySorted R l2 ->
  (forall x y, x ∈ l1 -> y ∈ l2 -> R x y) ->
  StronglySorted R (l1 ++ l2).
Proof.
  induction 1 as [|x l1 Hs IH Hx]; intros H2 Hcross; simpl; [exact H2|].
  constructor.
  - apply IH; [exact H2|]. intros a b Ha Hb. apply Hcross; [now right | exact Hb].
  - apply Forall_app. split; [exact Hx|].
    apply Forall_forall. intros y Hy. apply Hcross; [left | exact Hy].
Qed.

(** The export clock: with playback that goes forward, the export times
    of the lookups do not decrease and stay within the slot of the run. *)
Lemma renderTimeline_clock caps clips : forall exportOffset,
  Forall playsForward clips ->
  StronglySorted Qle
    (map lk_tExport (renderTimeline clips caps exportOffset))
  /\ Forall (fun lk => exportOffset <= lk_tExport lk
                       /\ lk_tExport lk
                          < offsetAfter exportOffset (map fst clips))
       (renderTimeline clips caps exportOffset).
Proof.
  induction clips as [|[c currentTimes] clips IH]; intros exportOffset Hall;
    [split; constructor|].
  cbn [renderTimeline map fst].
  apply Forall_cons in Hall as [(Hc & Hsorted & Hstart) Hall].
  cbn [fst snd] in Hc, Hsorted, Hstart.
  destruct (IH (exportOffset + (clip_end c - clip_start c)) Hall)
    as [IHs IHslot].
  pose proof (offsetAfter_ge (map fst clips)
                (exportOffset + (clip_end c - clip_start c))) as Hge.
  assert (Hends : Forall (fun c0 => clip_start c0 <= clip_end c0)
                    (map fst clips)).
  { apply Forall_forall. intros c0 Hc0.
    apply list_elem_of_In, in_map_iff in Hc0 as ([c1 t1] & <- & Hin).
    rewrite Forall_forall in Hall.
    now destruct (Hall (c1, t1) (proj2 (list_elem_of_In _ _) Hin)). }
  specialize (Hge Hends). rewrite offsetAfter_cons.
  unfold renderClipToCanvas.
  pose proof (draw_times_lower c caps exportOffset (clip_start c)
                currentTimes 0%nat Hstart) as Hlow.
  pose proof (draw_times_upper c caps exportOffset currentTimes 0%nat) as Hup.
  rewrite Forall_forall in Hlow, Hup, IHslot.
  split.
  - rewrite map_app. apply StronglySorted_app_intro.
    + apply draw_times_sorted. apply Sorted_StronglySorted; [|exact Hsorted].
      intros x y z. apply Qle_trans.
    + exact IHs.
    + intros x y Hx Hy.
      apply list_elem_of_In, in_map_iff in Hx as (lx & <- & Hlx).
      apply list_elem_of_In, in_map_iff in Hy as (ly & <- & Hly).
      apply list_elem_of_In in Hlx, Hly.
      specialize (Hup lx Hlx). destruct (IHslot ly Hly) as [H1 _]. lra.
  - apply Forall_app. split; apply Forall_forall; intros lk Hlk.
    + specialize (Hlow lk Hlk). specialize (Hup lk Hlk). split; lra.
    + destruct (IHslot lk Hlk). split; lra.
Qed.

(** X17.  The export clock: when the playback of every clip goes forward
    from the start of the clip, the export times at which
    [exportCompilation] looks captions up do not decrease from frame to
    frame and from clip to clip, and none is negative or beyond
    [durationSec], the total duration that [prepareAudioGraph] computes
    with the same sum. *)
Theorem export_clock (clips : list (Clip * list Q))
    (transcription : option AsrResult) (wantAsr : bool)
    (transcribePCM : option AsrResult) :
  Forall playsForward clips ->
  Sorted Qle
    (map lk_tExport
       (exportCompilation clips transcription wantAsr transcribePCM))
  /\ Forall (fun lk => 0 <= lk_tExport lk
                       /\ lk_tExport lk <= durationSec (map fst clips))
       (exportCompilation clips transcription wantAsr transcribePCM).
Proof.
  intros Hall. unfold exportCompilation, durationSec.
  destruct (renderTimeline_clock
              (captionSegmentsOf transcription wantAsr transcribePCM)
              clips 0 Hall) as [Hs Hslot].
  split; [now apply StronglySorted_Sorted|].
  eapply Forall_impl; [exact Hslot|].
  intros lk [Hlo Hhi]. split; [exact Hlo | apply Qlt_le_weak, Hhi].
Qed.

Lemma export_clock_witness :
  Sorted Qle
    (map lk_tExport (exportCompilation twoClips (Some twoCaptions) false None)).
Proof.
  apply (export_clock twoClips (Some twoCaptions) false None).
  repeat constructor; simpl; lra.
Defined.

(** X18.  With playback that goes forward, the caption cursor of
    [exportCompilation] is never behind where it was: the cursor indices
    used by the successive lookups of a run do not decrease, although
    each clip starts its own cursor at 0. *)
Theorem export_cursor_forward (clips : list (Clip * list Q))
    (transcription : option AsrResult) (wantAsr : bool)
    (transcribePCM : option AsrResult) :
  Forall playsForward clips ->
  Sorted le
    (map lk_segIdx
       (exportCompilation clips transcription wantAsr transcribePCM)).
Proof.
  intros Hall. unfold exportCompilation.
  destruct (renderTimeline_clock
              (captionSegmentsOf transcription wantAsr transcribePCM)
              clips 0 Hall) as [Hs _].
  destruct (captionSegmentsOf transcription wantAsr transcribePCM)
    as [segs|].
  - apply StronglySorted_Sorted, (cursor_sorted segs); [|exact Hs].
    now apply renderTimeline_selects.
  - rewrite renderTimeline_no_segments. constructor.
Qed.

Lemma export_cursor_forward_witness :
  Sorted le
    (map lk_segIdx (exportCompilation twoClips (Some twoCaptions) false None)).
Proof.
  apply (export_cursor_forward twoClips (Some twoCaptions) false None).
  repeat constructor; simpl; lra.
Defined.

(* ================================================================== *)
(** ** extractSegments and the captions that are drawn *)

Lemma segmentOfChunk_bounds ch :
  0 <= seg_start (segmentOfChunk ch)
  /\ (0 <= seg_end (segmentOfChunk ch) ->
      seg_start (segmentOfChunk ch) <= seg_end (segmentOfChunk ch)).
Proof.
  unfold segmentOfChunk. simpl.
  set (start := match chunk_ts ch with
                | Some (t0, _) => orZero t0
                | None => orZero (ch_start ch)
                end).
  set (end_ := match chunk_ts ch with
               | Some (_, t1) => orZero t1
               | None => orZero (ch_end ch)
               end).
  destruct (Math_max_cases 0 start) as [[? ->]|[? ->]];
    destruct (Math_max_cases start end_) as [[? ->]|[? ->]]; split; lra.
Qed.

Lemma extractSegments_chunks r :
  resultChunks r <> [] ->
  extractSegments (Some r) = Some (map segmentOfChunk (resultChunks r)).
Proof.
  intros Hne. unfold extractSegments.
  destruct (resultChunks r) as [|ch chunks]; [congruence|]. reflexivity.
Qed.

(** X19.  For a transcription result with at least one chunk,
    [extractSegments] returns one segment per chunk, in the order of the
    chunks, and never the fallback segment; every segment starts at or
    after 0, and does not end before it starts unless its end is
    negative. *)
Theorem extractSegments_one_per_chunk (r : AsrResult) :
  resultChunks r <> [] ->
  exists segs,
    extractSegments (Some r) = Some segs
    /\ segs = map segmentOfChunk (resultChunks r)
    /\ length segs = length (resultChunks r)
    /\ Forall (fun s => 0 <= seg_start s
                        /\ (0 <= seg_end s -> seg_start s <= seg_end s)) segs.
Proof.
  intros Hne. exists (map segmentOfChunk (resultChunks r)).
  split; [now apply extractSegments_chunks|]. split; [reflexivity|].
  split; [apply length_map|].
  apply Forall_forall. intros s Hs.
  apply list_elem_of_In, in_map_iff in Hs as (ch & <- & _).
  apply segmentOfChunk_bounds.
Qed.

Lemma extractSegments_one_per_chunk_witness :
  exists segs,
    extractSegments (Some twoCaptions) = Some segs
    /\ segs = map segmentOfChunk (resultChunks twoCaptions)
    /\ length segs = length (resultChunks twoCaptions)
    /\ Forall (fun s => 0 <= seg_start s
                        /\ (0 <= seg_end s -> seg_start s <= seg_end s)) segs.
Proof.
  apply (extractSegments_one_per_chunk twoCaptions). discriminate.
Defined.

(** X20.  A chunk [{ start: s, end: e, text }] with [0 <= s <= e] and a
    non-empty text, and no other time field, becomes the segment
    [{ start: s, end: e, text }]. *)
Theorem segmentOfChunk_start_end (s e : Q) (text : string) :
  0 <= s -> s <= e -> text <> EmptyString ->
  segmentOfChunk (timedChunk s e text)
  = {| seg_start := s; seg_end := e; seg_text := text |}.
Proof.
  intros H0 Hse Hne. unfold segmentOfChunk, chunk_ts, timedChunk. simpl.
  destruct (Math_max_cases 0 s) as [[_ ->]|[? _]]; [|lra].
  destruct (Math_max_cases s e) as [[_ ->]|[? _]]; [|lra].
  assert (Ht : truthyStr (Some text) = true).
  { unfold truthyStr. now apply negb_true_iff, String.eqb_neq. }
  unfold orStr. now rewrite !Ht.
Qed.

Lemma segmentOfChunk_start_end_witness :
  segmentOfChunk (timedChunk 1 3 "b")
  = {| seg_start := 1; seg_end := 3; seg_text := "b" |}.
Proof.
  apply (segmentOfChunk_start_end 1 3 "b"); [lra | lra | discriminate].
Defined.

Lemma whisperChunk_segment ch :
  whisperChunk ch ->
  seg_start (segmentOfChunk ch) = 0 /\ seg_end (segmentOfChunk ch) = 0.
Proof.
  intros ([ts Hts] & Hs & He). unfold segmentOfChunk, chunk_ts.
  rewrite Hts, Hs, He. simpl. split; reflexivity.
Qed.

Lemma draw_drawnByCursor clip segs exportOffset currentTimes : forall s,
  Forall (drawnByCursor segs)
    (draw clip (Some segs) exportOffset currentTimes s).
Proof.
  induction currentTimes as [|ct later IH]; intros s; simpl; [constructor|].
  destruct (Qle_bool (clip_end clip) ct); [constructor|].
  destruct segs as [|seg0 segs']; [apply IH|].
  constructor; [reflexivity | apply IH].
Qed.

Lemma renderTimeline_drawnByCursor segs clips : forall exportOffset,
  Forall (drawnByCursor segs) (renderTimeline clips (Some segs) exportOffset).
Proof.
  induction clips as [|[c currentTimes] clips IH]; intros exportOffset; simpl;
    [constructor|].
  apply Forall_app. split; [apply draw_drawnByCursor | apply IH].
Qed.

(** X21.  Chunks as Whisper gives them, [{ text, timestamp }] without
    [timestart] and [timeend], all become segments from 0 to 0 (the
    [timestamp] array selects the branch that reads [timestart] and
    [timeend]); with a transcription that has only such chunks,
    [exportCompilation] draws no caption at any export time after 0. *)
Theorem whisper_chunks_give_no_captions (clips : list (Clip * list Q))
    (r : AsrResult) (wantAsr : bool) (transcribePCM : option AsrResult)
    (lk : Lookup) :
  resultChunks r <> [] ->
  Forall whisperChunk (resultChunks r) ->
  In lk (exportCompilation clips (Some r) wantAsr transcribePCM) ->
  0 < lk_tExport lk ->
  lk_drawn lk = None.
Proof.
  intros Hne Hw Hin Hpos. unfold exportCompilation, captionSegmentsOf in Hin.
  rewrite (extractSegments_chunks r Hne) in Hin.
  pose proof (renderTimeline_drawnByCursor
                (map segmentOfChunk (resultChunks r)) clips 0) as Hd.
  rewrite Forall_forall in Hd.
  specialize (Hd lk (proj2 (list_elem_of_In _ _) Hin)).
  destruct (lk_drawn lk) as [text|] eqn:E; [|reflexivity].
  unfold drawnByCursor in Hd. rewrite E in Hd. symmetry in Hd.
  apply captionAt_Some in Hd as (seg & Hseg & _ & _ & Hend).
  apply list_elem_of_lookup_2, list_elem_of_In, in_map_iff in Hseg
    as (ch & <- & Hch).
  rewrite Forall_forall in Hw.
  destruct (whisperChunk_segment ch (Hw ch (proj2 (list_elem_of_In _ _) Hch)))
    as [_ He0].
  rewrite He0 in Hend. lra.
Qed.

Lemma whisper_chunks_give_no_captions_witness :
  lk_drawn {| lk_tExport := 0 + (1 - 0); lk_segIdx := 2; lk_drawn := None |}
  = None.
Proof.
  apply (whisper_chunks_give_no_captions twoClips whisperCaptions false None).
  - discriminate.
  - repeat constructor; simpl; eauto.
  - right. left. reflexivity.
  - simpl. lra.
Defined.

(** X22.  Without a transcription from the host, and with ASR either not
    wanted or failed, [exportCompilation] looks no caption up and draws
    none, whatever the clips and the frames. *)
Theorem export_without_captions (clips : list (Clip * list Q))
    (wantAsr : bool) (transcribePCM : option AsrResult) :
  wantAsr = false \/ transcribePCM = None ->
  exportCompilation clips None wantAsr transcribePCM = [].
Proof.
  intros H. unfold exportCompilation, captionSegmentsOf.
  assert (Hcaps : (if wantAsr then extractSegments transcribePCM else None)
                  = None).
  { destruct H as [->| ->]; [reflexivity|]. now destruct wantAsr. }
  rewrite Hcaps. apply renderTimeline_no_segments.
Qed.

Lemma export_without_captions_witness :
  exportCompilation twoClips None true None = [].
Proof.
  apply (export_without_captions twoClips true None). now right.
Defined.

(* ================================================================== *)
(** ** computeCoverRect: the direction of the crop *)

Lemma Qdiv_mult_cancel a b : ~ b == 0 -> a / b * b == a.
Proof. intros Hb. field. exact Hb. Qed.

Lemma Qdiv_pos a b : 0 < a -> 0 < b -> 0 < a / b.
Proof.
  intros Ha Hb. apply Qlt_shift_div_l; [exact Hb|]. lra.
Qed.

Lemma Qle_div_mult a b c : 0 < c -> a <= b / c -> a * c <= b.
Proof.
  intros Hc H. apply Qmult_le_r with (z := c) in H; [|exact Hc].
  rewrite (Qdiv_mult_cancel b c) in H by lra. exact H.
Qed.

(** X23.  [computeCoverRect] crops in one direction only and draws over
    the whole destination.  For positive sizes, a source that is wider
    than the destination ([srcW / srcH > dstW / dstH]) keeps its whole
    height and is cropped at the sides, by a crop that lies within the
    width of the source; any other source keeps its whole width and has
    no horizontal offset. *)
Theorem computeCoverRect_crops_one_way (srcW srcH dstW dstH : Q) :
  0 < srcW -> 0 < srcH -> 0 < dstW -> 0 < dstH ->
  let r := computeCoverRect srcW srcH dstW dstH in
  dx r = 0 /\ dy r = 0 /\ dWidth r = dstW /\ dHeight r = dstH
  /\ ((dstW / dstH < srcW / srcH
       /\ sHeight r = srcH /\ sy r == 0
       /\ sWidth r <= srcW /\ 0 <= sx r /\ sx r + sWidth r <= srcW)
      \/ (srcW / srcH <= dstW / dstH
          /\ sWidth r = srcW /\ sx r == 0)).
Proof.
  intros HsW HsH HdW HdH. unfold computeCoverRect. cbv zeta.
  cbn [sx sy sWidth sHeight dx dy dWidth dHeight].
  split; [reflexivity|]. split; [reflexivity|].
  split; [reflexivity|]. split; [reflexivity|].
  destruct (Qlt_bool (dstW / dstH) (srcW / srcH)) eqn:E.
  - left. apply Qlt_bool_iff in E. split; [exact E|].
    split; [reflexivity|]. split; [field|].
    assert (Hw : srcH * (dstW / dstH) <= srcW).
    { apply Qlt_le_weak.
      apply Qmult_lt_r with (z := srcH) in E; [|exact HsH].
      rewrite (Qdiv_mult_cancel srcW srcH) in E by lra. lra. }
    split; [exact Hw|].
    set (w := srcH * (dstW / dstH)) in *.
    assert (Hx : (srcW - w) / 2 * 2 == srcW - w).
    { apply Qdiv_mult_cancel. discriminate. }
    split; lra.
  - right.
    assert (Hle : srcW / srcH <= dstW / dstH).
    { destruct (Qlt_le_dec (dstW / dstH) (srcW / srcH)) as [H|H];
        [|exact H]. apply Qlt_bool_iff in H. congruence. }
    split; [exact Hle|]. split; [reflexivity | field].
Qed.

Lemma computeCoverRect_crops_one_way_witness :
  let r := computeCoverRect 1920 1080 1080 1920 in
  dx r = 0 /\ dy r = 0 /\ dWidth r = 1080 /\ dHeight r = 1920
  /\ ((1080 / 1920 < 1920 / 1080
       /\ sHeight r = 1080 /\ sy r == 0
       /\ sWidth r <= 1920 /\ 0 <= sx r /\ sx r + sWidth r <= 1920)
      \/ (1920 / 1080 <= 1080 / 1920
          /\ sWidth r = 1920 /\ sx r == 0)).
Proof.
  apply (computeCoverRect_crops_one_way 1920 1080 1080 1920); lra.
Defined.

(* ================================================================== *)
(** ** resampleMonoPCM *)

Lemma orNum_eq v d : orNum (Some v) d == v \/ (v == 0 /\ orNum (Some v) d = d).
Proof.
  unfold orNum. destruct (Qeq_bool v 0) eqn:E; [right | left; reflexivity].
  apply Qeq_bool_iff in E. auto.
Qed.

Lemma atZ_nat (arr : list Q) (n : nat) : atZ arr (Z.of_nat n) = arr !! n.
Proof.
  unfold atZ. destruct (Z.ltb_spec (Z.of_nat n) 0); [lia|].
  now rewrite Nat2Z.id.
Qed.

(** The sample that [interpolate] starts from is a sample of the source,
    as long as the index is within the output. *)
Lemma interpolate_base (sourcePCM : list Q) ratio i :
  0 < ratio ->
  (Z.of_nat i < Math_floor (len sourcePCM / ratio))%Z ->
  exists n s,
    Math_floor (inject_Z (Z.of_nat i) * ratio) = Z.of_nat n
    /\ sourcePCM !! n = Some s.
Proof.
  intros Hr Hi. unfold Math_floor in *.
  set (idx := inject_Z (Z.of_nat i) * ratio).
  assert (Hidx0 : 0 <= idx).
  { unfold idx. assert (0 <= inject_Z (Z.of_nat i)).
    { change 0 with (inject_Z 0). rewrite <- Zle_Qle. lia. }
    apply Qmult_le_0_compat; lra. }
  assert (Hlt : idx < len sourcePCM).
  { assert (H1 : inject_Z (Z.of_nat i) + 1
                 <= inject_Z (Qfloor (len sourcePCM / ratio))).
    { change 1 with (inject_Z 1). rewrite <- inject_Z_plus, <- Zle_Qle. lia. }
    pose proof (Qfloor_le (len sourcePCM / ratio)) as H2.
    assert (H3 : (inject_Z (Z.of_nat i) + 1) * ratio <= len sourcePCM).
    { apply Qle_div_mult; [exact Hr | lra]. }
    unfold idx. lra. }
  assert (Hf0 : (0 <= Qfloor idx)%Z).
  { change 0%Z with (Qfloor 0). now apply Qfloor_resp_le. }
  assert (Hfl : (Qfloor idx < Z.of_nat (length sourcePCM))%Z).
  { rewrite Zlt_Qlt. eapply Qle_lt_trans; [apply Qfloor_le|]. exact Hlt. }
  destruct (lookup_lt_is_Some_2 sourcePCM (Z.to_nat (Qfloor idx)))
    as [s Hs]; [lia|].
  exists (Z.to_nat (Qfloor idx)), s. split; [lia | exact Hs].
Qed.

Lemma frac_bounds x : 0 <= x - inject_Z (Qfloor x) < 1.
Proof.
  pose proof (Qfloor_le x). pose proof (Qlt_floor x) as H1.
  rewrite inject_Z_plus in H1. change (inject_Z 1) with 1 in H1.
  split; lra.
Qed.

Lemma between_bounds lo hi v0 v1 f :
  lo <= v0 <= hi -> lo <= v1 <= hi -> 0 <= f < 1 ->
  lo <= v0 + (v1 - v0) * f <= hi.
Proof.
  intros [H0 H0'] [H1 H1'] [Hf Hf']. split; nra.
Qed.

Lemma interpolate_within (sourcePCM : list Q) ratio lo hi i :
  0 < ratio ->
  Forall (fun x => lo <= x <= hi) sourcePCM ->
  (Z.of_nat i < Math_floor (len sourcePCM / ratio))%Z ->
  lo <= interpolate sourcePCM ratio i <= hi.
Proof.
  intros Hr Hall Hi.
  destruct (interpolate_base sourcePCM ratio i Hr Hi) as (n & s & Hn & Hs).
  unfold interpolate. rewrite Hn.
  replace (Z.of_nat n + 1)%Z with (Z.of_nat (S n)) by lia.
  rewrite !atZ_nat, Hs.
  rewrite Forall_forall in Hall.
  assert (Hv0 : lo <= orNum (Some s) 0 <= hi).
  { pose proof (Hall s (list_elem_of_lookup_2 _ _ _ Hs)) as Hb.
    destruct (orNum_eq s 0) as [E|[E ->]]; [rewrite E; exact Hb | lra]. }
  assert (Hv1 : lo <= orNum (sourcePCM !! S n) (orNum (Some s) 0) <= hi).
  { destruct (sourcePCM !! S n) as [s'|] eqn:Hs'; [|exact Hv0].
    pose proof (Hall s' (list_elem_of_lookup_2 _ _ _ Hs')) as Hb.
    destruct (orNum_eq s' (orNum (Some s) 0)) as [E|[_ ->]];
      [rewrite E; exact Hb | exact Hv0]. }
  apply between_bounds; [exact Hv0 | exact Hv1|].
  unfold Math_floor in Hn. rewrite <- Hn. apply frac_bounds.
Qed.

(** X25.  Resampling never leaves the range of the source: for positive
    rates, if every sample of the source lies between [lo] and [hi], so
    does every sample that [resampleMonoPCM] returns. *)
Theorem resampleMonoPCM_within (sourcePCM : list Q)
    (sourceRate targetRate lo hi : Q) :
  0 < sourceRate -> 0 < targetRate ->
  Forall (fun x => lo <= x <= hi) sourcePCM ->
  Forall (fun v => lo <= v <= hi)
    (resampleMonoPCM sourcePCM sourceRate targetRate).
Proof.
  intros Hs Ht Hall. unfold resampleMonoPCM.
  destruct (Qeq_bool sourceRate targetRate); [exact Hall|].
  apply Forall_forall. intros v Hv.
  apply list_elem_of_In, in_map_iff in Hv as (i & <- & Hi).
  apply in_seq in Hi.
  assert (Hr : 0 < sourceRate / targetRate) by now apply Qdiv_pos.
  apply interpolate_within; [exact Hr | exact Hall|].
  unfold Math_floor in *.
  destruct (Z.le_gt_cases 0 (Qfloor (len sourcePCM / (sourceRate / targetRate))));
    lia.
Qed.

Lemma resampleMonoPCM_within_witness :
  Forall (fun v => 1 <= v <= 4) (resampleMonoPCM [1; 2; 4; 3; 1] 3 2).
Proof.
  apply (resampleMonoPCM_within [1; 2; 4; 3; 1] 3 2 1 4); try lra.
  repeat constructor; simpl; lra.
Defined.




(* ================================================================== *)
(** ** computeRMS *)

Lemma windowsFrom_step n windowSize hop i :
  (1 <= hop)%nat -> (i + windowSize <= n)%nat ->
  windowsFrom n windowSize hop i
  = S (windowsFrom n windowSize hop (i + hop)).
Proof.
  intros Hhop Hi. unfold windowsFrom.
  destruct (Nat.leb_spec (i + windowSize) n) as [_|]; [|lia].
  destruct (Nat.leb_spec (i + hop + windowSize) n) as [Hnext|Hlast].
  - replace (n - windowSize - i)%nat
      with (n - windowSize - (i + hop) + 1 * hop)%nat by lia.
    rewrite Nat.div_add by lia. lia.
  - rewrite Nat.div_small by lia. lia.
Qed.

Lemma windowsFrom_le n windowSize hop i :
  (1 <= hop)%nat -> (windowsFrom n windowSize hop i <= S n - i)%nat.
Proof.
  intros Hhop. unfold windowsFrom.
  destruct (Nat.leb_spec (i + windowSize) n) as [Hi|]; [|lia].
  assert ((n - windowSize - i) / hop <= n - windowSize - i)%nat; [|lia].
  apply Nat.Div0.div_le_upper_bound. nia.
Qed.

Lemma computeRMS_loop_spec Math_sqrt buffer windowSize hop :
  (1 <= hop)%nat ->
  forall fuel i rms,
    (windowsFrom (length buffer) windowSize hop i <= fuel)%nat ->
    computeRMS_loop Math_sqrt fuel buffer windowSize hop i rms
    = rms ++ map (fun t => rmsAt Math_sqrt buffer windowSize (i + t * hop))
               (seq 0 (windowsFrom (length buffer) windowSize hop i)).
Proof.
  intros Hhop. induction fuel as [|fuel IH]; intros i rms Hfuel.
  - replace (windowsFrom (length buffer) windowSize hop i) with 0%nat by lia.
    simpl. now rewrite app_nil_r.
  - simpl. destruct (Nat.leb_spec (i + windowSize) (length buffer)) as [Hi|Hi].
    + rewrite (windowsFrom_step _ _ _ _ Hhop Hi) in Hfuel |- *.
      rewrite IH by lia. rewrite <- app_assoc. f_equal.
      cbn [seq map app]. rewrite Nat.add_0_r. f_equal.
      rewrite <- seq_shift, map_map. apply map_ext. intros t.
      f_equal. lia.
    + unfold windowsFrom. destruct (Nat.leb_spec (i + windowSize)
                                      (length buffer)); [lia|].
      simpl. now rewrite app_nil_r.
Qed.

(** X27.  For a hop of at least 1, [computeRMS] returns one value per
    window that fits into the buffer, [floor((length - windowSize) / hop)
    + 1] of them, or none when the buffer is shorter than a window;
    value [t] is the root of the mean square of the window that starts
    at [t * hop].  With the window and the hop of [analyzeVideos], both
    1600, a buffer gives [floor(length / 1600)] values. *)
Theorem computeRMS_windows (Math_sqrt : Q -> Q) (buffer : list Q)
    (windowSize hop : nat) :
  (1 <= hop)%nat ->
  computeRMS Math_sqrt buffer windowSize hop
  = map (fun t => Math_sqrt (sumSquares buffer (t * hop) windowSize
                             / inject_Z (Z.of_nat windowSize)))
      (seq 0 (if (windowSize <=? length buffer)%nat
              then (length buffer - windowSize) / hop + 1
              else 0))
  /\ length (computeRMS Math_sqrt buffer 1600 1600)
     = (length buffer / 1600)%nat.
Proof.
  intros Hhop.
  assert (Hgen : forall w h, (1 <= h)%nat ->
            computeRMS Math_sqrt buffer w h
            = map (fun t => rmsAt Math_sqrt buffer w (t * h))
                (seq 0 (windowsFrom (length buffer) w h 0))).
  { intros w h Hh. unfold computeRMS.
    rewrite (computeRMS_loop_spec Math_sqrt buffer w h Hh).
    - reflexivity.
    - pose proof (windowsFrom_le (length buffer) w h 0 Hh). lia. }
  split.
  - rewrite (Hgen _ _ Hhop). unfold windowsFrom, rmsAt. simpl.
    now rewrite Nat.sub_0_r.
  - rewrite (Hgen 1600%nat 1600%nat) by lia.
    rewrite length_map, length_seq. unfold windowsFrom.
    change (0 + 1600)%nat with 1600%nat. rewrite Nat.sub_0_r.
    destruct (Nat.leb_spec 1600 (length buffer)) as [H|H].
    + replace (length buffer) with (length buffer - 1600 + 1 * 1600)%nat
        at 2 by lia.
      rewrite Nat.div_add by lia. reflexivity.
    + now rewrite Nat.div_small by lia.
Qed.

Lemma computeRMS_windows_witness :
  computeRMS (fun x => x) [1; 2; 3; 4; 5] 2 2
  = map (fun t => sumSquares [1; 2; 3; 4; 5] (t * 2) 2 / inject_Z 2)
      [0; 1]%nat.
Proof.
  apply (proj1 (computeRMS_windows (fun x => x) [1; 2; 3; 4; 5] 2 2
                  ltac:(lia))).
Defined.

(* ================================================================== *)
(** ** wrapText *)

Lemma string_app_assoc (a b c : string) :
  ((a ++ b) ++ c)%string = (a ++ (b ++ c))%string.
Proof. induction a as [|x a IH]; simpl; [reflexivity | now rewrite IH]. Qed.

Lemma nonEmpty_true s : nonEmpty s = true <-> s <> EmptyString.
Proof. unfold nonEmpty. rewrite negb_true_iff. apply String.eqb_neq. Qed.

Lemma nonEmpty_app a b : nonEmpty a = true -> nonEmpty (a ++ b) = true.
Proof. destruct a; simpl; [discriminate | reflexivity]. Qed.

(** Joining with a separator, one more item at the end. *)
Lemma concat_snoc sep (l : list string) a b :
  String.concat sep (l ++ [a; b])
  = (String.concat sep (l ++ [a]) ++ sep ++ b)%string.
Proof.
  induction l as [|x l IH]; [reflexivity|].
  change ((x :: l) ++ [a; b]) with (x :: (l ++ [a; b])).
  change ((x :: l) ++ [a]) with (x :: (l ++ [a])).
  destruct l as [|y l]; simpl in *.
  - now rewrite !string_app_assoc.
  - rewrite IH. now rewrite !string_app_assoc.
Qed.

Lemma concat_grow_last sep (l : list string) a b :
  String.concat sep (l ++ [(a ++ b)%string])
  = (String.concat sep (l ++ [a]) ++ b)%string.
Proof.
  induction l as [|x l IH]; [reflexivity|].
  change ((x :: l) ++ [?z]) with (x :: (l ++ [z])).
  destruct l as [|y l]; simpl in *.
  - now rewrite !string_app_assoc.
  - rewrite IH. now rewrite !string_app_assoc.
Qed.

Lemma wrapText_laidOut measureText maxWidth words :
  wrapText measureText words maxWidth
  = laidOut (fold_left (wrapText_step measureText maxWidth) words
               ([], EmptyString)).
Proof.
  unfold wrapText, laidOut.
  now destruct (fold_left _ words _) as [lines line].
Qed.

(** Words that are not empty are all kept, in order, one space apart. *)
Lemma wrapText_fold_words measureText maxWidth words : forall st done,
  Forall (fun w => w <> EmptyString) words ->
  (done = [] -> st = ([], EmptyString)) ->
  (done <> [] -> nonEmpty st.2 = true) ->
  String.concat " "%string (laidOut st) = String.concat " "%string done ->
  String.concat " "
    (laidOut (fold_left (wrapText_step measureText maxWidth) words st))
  = String.concat " "%string (done ++ words).
Proof.
  induction words as [|w words IH]; intros st done Hne Hnil Hcons Heq; simpl.
  - now rewrite app_nil_r.
  - apply Forall_cons in Hne as [Hw Hne].
    replace (done ++ w :: words) with ((done ++ [w]) ++ words)
      by now rewrite <- app_assoc.
    assert (Hwt : nonEmpty w = true) by now apply nonEmpty_true.
    apply IH; [exact Hne | | |].
    + intros E. now apply app_eq_nil in E as [_ E].
    + intros _. destruct st as [lines line]. unfold wrapText_step.
      destruct (nonEmpty line) eqn:El; simpl.
      * destruct (Qlt_bool maxWidth _); simpl;
          [exact Hwt | now apply nonEmpty_app].
      * rewrite andb_false_r. exact Hwt.
    + destruct (list_snoc_cases done) as [->|(done' & d & ->)].
      * rewrite (Hnil eq_refl). unfold wrapText_step, laidOut. simpl.
        rewrite andb_false_r. simpl. now rewrite Hwt.
      * assert (Hl : nonEmpty st.2 = true).
        { apply Hcons. intros E. now apply app_eq_nil in E as [_ E]. }
        destruct st as [lines line]. simpl in Hl.
        unfold laidOut in Heq. simpl in Heq. rewrite Hl in Heq.
        rewrite <- app_assoc. change ([d] ++ [w]) with [d; w].
        rewrite concat_snoc, <- Heq.
        unfold wrapText_step. rewrite Hl.
        destruct (Qlt_bool maxWidth _); simpl; unfold laidOut; simpl.
        -- rewrite Hwt, <- app_assoc. apply concat_snoc.
        -- rewrite (nonEmpty_app line _ Hl). apply concat_grow_last.
Qed.

(** X28.  [wrapText] loses no word: for words that are not empty, the
    lines joined by single spaces are the words joined by single
    spaces, whatever the widths. *)
Theorem wrapText_keeps_words (measureText : string -> Q) (maxWidth : Q)
    (words : list string) :
  Forall (fun w => w <> EmptyString) words ->
  String.concat " "%string (wrapText measureText words maxWidth)
  = String.concat " "%string words.
Proof.
  intros Hne. rewrite wrapText_laidOut.
  apply (wrapText_fold_words measureText maxWidth words ([], EmptyString) []);
    [exact Hne | reflexivity | congruence | reflexivity].
Qed.

Lemma wrapText_keeps_words_witness :
  String.concat " "
    (wrapText (fun s => inject_Z (Z.of_nat (String.length s)))
       ["the"; "quick"; "brown"; "fox"]%string 9)
  = "the quick brown fox"%string.
Proof.
  apply (wrapText_keeps_words
           (fun s => inject_Z (Z.of_nat (String.length s))) 9
           ["the"; "quick"; "brown"; "fox"]%string).
  repeat constructor; discriminate.
Defined.

Lemma wrapText_step_cases measureText maxWidth lines line w :
  (nonEmpty line = false
   /\ wrapText_step measureText maxWidth (lines, line) w = (lines, w))
  \/ (nonEmpty line = true
      /\ maxWidth < measureText (line ++ " " ++ w)%string
      /\ wrapText_step measureText maxWidth (lines, line) w
         = (lines ++ [line], w))
  \/ (nonEmpty line = true
      /\ measureText (line ++ " " ++ w)%string <= maxWidth
      /\ wrapText_step measureText maxWidth (lines, line) w
         = (lines, (line ++ " " ++ w)%string)).
Proof.
  unfold wrapText_step. destruct (nonEmpty line) eqn:El.
  - right.
    destruct (Qlt_bool maxWidth (measureText (line ++ " " ++ w)%string))
      eqn:E; simpl.
    + left. apply Qlt_bool_iff in E. auto.
    + right. split; [reflexivity|]. split; [|reflexivity].
      destruct (Qlt_le_dec maxWidth (measureText (line ++ " " ++ w)%string))
        as [H|H]; [|exact H].
      apply Qlt_bool_iff in H. congruence.
  - left. rewrite andb_false_r. auto.
Qed.

Lemma wrapText_fold_fits measureText maxWidth all words : forall st,
  (forall w, w ∈ words -> w ∈ all) ->
  Forall (fun l => nonEmpty l = true
                   /\ fitsOrWord measureText maxWidth all l) (laidOut st) ->
  Forall (fun l => nonEmpty l = true
                   /\ fitsOrWord measureText maxWidth all l)
    (laidOut (fold_left (wrapText_step measureText maxWidth) words st)).
Proof.
  induction words as [|w words IH]; intros st Hsub Hst; simpl; [exact Hst|].
  apply IH; [intros w' Hw'; apply Hsub; now right|].
  assert (Hw : w ∈ all) by (apply Hsub; left).
  destruct st as [lines line]. unfold laidOut in Hst. simpl in Hst.
  assert (Hword : Forall (fun l => nonEmpty l = true
                     /\ fitsOrWord measureText maxWidth all l)
                    (if nonEmpty w then [w] else [])).
  { destruct (nonEmpty w) eqn:Ew; constructor; [|constructor].
    split; [exact Ew | now right]. }
  destruct (wrapText_step_cases measureText maxWidth lines line w)
    as [[El ->]|[(El & Hwide & ->)|(El & Hfit & ->)]];
    rewrite El in Hst; unfold laidOut; simpl.
  - destruct (nonEmpty w); [|exact Hst]. now apply Forall_app.
  - destruct (nonEmpty w); [|exact Hst]. now apply Forall_app.
  - rewrite (nonEmpty_app line _ El).
    apply Forall_app in Hst as [Hlines _].
    apply Forall_app. split; [exact Hlines|].
    constructor; [|constructor]. split; [now apply nonEmpty_app | now left].
Qed.

(** X29.  No line that [wrapText] returns is empty, and every line is at
    most [maxWidth] wide unless it is a single word of the text. *)
Theorem wrapText_lines_fit (measureText : string -> Q) (maxWidth : Q)
    (words : list string) (line : string) :
  In line (wrapText measureText words maxWidth) ->
  line <> EmptyString
  /\ (measureText line <= maxWidth \/ In line words).
Proof.
  rewrite wrapText_laidOut. intros Hin.
  pose proof (wrapText_fold_fits measureText maxWidth words words
                ([], EmptyString) (fun w H => H)) as Hall.
  specialize (Hall ltac:(constructor)). rewrite Forall_forall in Hall.
  destruct (Hall line (proj2 (list_elem_of_In _ _) Hin))
    as [Hne [Hfit|Hword]].
  - split; [now apply nonEmpty_true | now left].
  - split; [now apply nonEmpty_true|]. right. now apply list_elem_of_In.
Qed.

Lemma wrapText_lines_fit_witness :
  "the quick"%string <> EmptyString
  /\ (inject_Z (Z.of_nat (String.length "the quick")) <= 9
      \/ In "the quick"%string ["the"; "quick"; "brown"; "fox"]%string).
Proof.
  apply (wrapText_lines_fit
           (fun s => inject_Z (Z.of_nat (String.length s))) 9
           ["the"; "quick"; "brown"; "fox"]%string "the quick").
  left. reflexivity.
Defined.

(* ================================================================== *)
(** ** formatSeconds *)

Lemma padStart2_two_digits r :
  (r < 60)%nat ->
  String.length (padStart2 (decimal r)) = 2%nat
  /\ parseDecimal (padStart2 (decimal r)) = Some r.
Proof.
  intros Hr.
  do 60 (destruct r as [|r]; [split; reflexivity|]). lia.
Qed.

Lemma parseDecimal_decimal n : parseDecimal (decimal n) = Some n.
Proof.
  unfold parseDecimal, decimal.
  rewrite NilEmpty.usu. simpl. f_equal. apply DecimalNat.Unsigned.of_to.
Qed.

(** X30.  For seconds up to [2^53], [formatSeconds] writes the seconds,
    rounded to the nearest integer and not below 0, as minutes, a colon
    and seconds: the two parts read back as numbers [m] and [r < 60]
    with [60 * m + r] the rounded seconds, and the seconds part always
    has two characters. *)
Theorem formatSeconds_reads_back (seconds : Q) :
  seconds <= inject_Z (2 ^ 53) ->
  exists m r ss,
    formatSeconds seconds = (decimal m ++ ":" ++ ss)%string
    /\ parseDecimal (decimal m) = Some m
    /\ parseDecimal ss = Some r
    /\ String.length ss = 2%nat
    /\ (r < 60)%nat
    /\ Z.of_nat (60 * m + r) = Z.max 0 (Qfloor (seconds + (1 # 2))).
Proof.
  intros _.
  set (s := Z.to_nat (Z.max 0 (Math_round seconds))).
  exists (s / 60)%nat, (s mod 60)%nat, (padStart2 (decimal (s mod 60))).
  assert (Hr : (s mod 60 < 60)%nat) by (apply Nat.mod_upper_bound; lia).
  destruct (padStart2_two_digits _ Hr) as [Hlen Hparse].
  split; [reflexivity|]. split; [apply parseDecimal_decimal|].
  split; [exact Hparse|]. split; [exact Hlen|]. split; [exact Hr|].
  rewrite <- (Nat.div_mod_eq s 60). unfold s, Math_round. lia.
Qed.

Lemma formatSeconds_reads_back_witness :
  exists m r ss,
    formatSeconds (151 # 2) = (decimal m ++ ":" ++ ss)%string
    /\ parseDecimal (decimal m) = Some m
    /\ parseDecimal ss = Some r
    /\ String.length ss = 2%nat
    /\ (r < 60)%nat
    /\ Z.of_nat (60 * m + r) = Z.max 0 (Qfloor ((151 # 2) + (1 # 2))).
Proof.
  apply (formatSeconds_reads_back (151 # 2)).
  apply Qle_bool_iff. vm_compute. reflexivity.
Defined.
